(** * USTAR: the de Bruijn graph of unitigs (DBG.cpp) and the driver (ustar.cpp)

    A shallow embedding of the parts of [DBG.cpp] and [ustar.cpp] that spell
    simplitigs, collect k-mer counts, query arcs, check paths, validate the
    parsed graph and read the k-mer size, together with the properties the
    specification states about them.

    Conventions.
    - [std::string] is a list of characters; [std::vector<T>] is a list.
    - [size_t] is 64 bits wide, [uint32_t] and [int] are 32 bits wide; every
      subtraction that can wrap is written with its modulus.
    - A call either returns, leaves the process through [exit], lets a
      [std::out_of_range] escape, or has undefined behaviour: see [outcome]. *)

From Stdlib Require Import ZArith Ascii String DecimalString.
From stdpp Require Import base numbers option list strings gmap.

(** ** Outcomes of a call *)

Inductive outcome (A : Type) : Type :=
  | Ret (a : A)          (* the call returns [a] *)
  | Exit (status : Z)    (* exit(status) *)
  | Throw                (* std::out_of_range leaves the function *)
  | Undefined.           (* undefined behaviour: operator[] out of range, ... *)

Arguments Ret {A} a.
Arguments Exit {A} status.
Arguments Throw {A}.
Arguments Undefined {A}.

#[global] Instance outcome_ret : MRet outcome := @Ret.
#[global] Instance outcome_bind : MBind outcome := λ A B f m,
  match m with
  | Ret a => f a
  | Exit c => Exit c
  | Throw => Throw
  | Undefined => Undefined
  end.

Definition returns {A} (m : outcome A) : Prop := ∃ a, m = Ret a.

(** <cstdlib> *)
Definition EXIT_SUCCESS : Z := 0.
Definition EXIT_FAILURE : Z := 1.

(** ** Machine integers *)

Definition to_uint32 (z : Z) : Z := (z mod 2 ^ 32)%Z.
Definition to_size_t (z : Z) : Z := (z mod 2 ^ 64)%Z.
Definition to_int (z : Z) : Z := ((z + 2 ^ 31) mod 2 ^ 32 - 2 ^ 31)%Z.

Definition INT_MIN : Z := (- 2 ^ 31)%Z.
Definition INT_MAX : Z := (2 ^ 31 - 1)%Z.

(** ** std::string and std::vector *)

Abbreviation std_string := (list ascii).

Definition str (s : string) : std_string := list_ascii_of_string s.

Definition size {A} (v : list A) : Z := Z.of_nat (length v).

(** [v.at(i)]: bounds-checked. *)
Definition vec_at {A} (v : list A) (i : N) : outcome A :=
  match v !! N.to_nat i with
  | Some x => Ret x
  | None => Throw
  end.

(** [v[i]]: unchecked. *)
Definition vec_index {A} (v : list A) (i : nat) : outcome A :=
  match v !! i with
  | Some x => Ret x
  | None => Undefined
  end.

(** libstdc++ on a 64-bit target: no string is longer than this. *)
Definition max_size : Z := (2 ^ 62 - 1)%Z.

(** [s.substr(pos)]: throws when [pos > size()]. *)
Definition substr_from (s : std_string) (pos : Z) : outcome std_string :=
  if (size s <? pos)%Z then Throw else Ret (drop (Z.to_nat pos) s).

(** [s.substr(pos, n)]: at most [n] characters, fewer when the string ends. *)
Definition substr (s : std_string) (pos n : Z) : outcome std_string :=
  if (size s <? pos)%Z then Throw
  else Ret (take (Z.to_nat (Z.min n (size s - pos))) (drop (Z.to_nat pos) s)).

(** ** Data model *)

(** Modelled from the spec: [DBG.h] is not among the sources. [node_idx_t]
    is the unsigned type of an index into the node table. *)
Abbreviation node_idx_t := N.

(** A double: a finite value [m * 2^e], an infinity or a NaN. *)
Inductive double : Type :=
  | Finite (m e : Z)
  | Infinity (negative : bool)
  | NaN.

(** Modelled from the spec: the struct of [DBG.h] for an outgoing arc, with
    the fields section 3 lists and the parser fills from [L:<s1>:<succ>:<s2>]. *)
Record arc_t : Type := mk_arc {
  forward : bool;
  successor : node_idx_t;
  to_forward : bool
}.

(** Modelled from the spec: the struct of [DBG.h] for a node, with the fields
    section 3 lists. [length] is read with [%d], so it is an [int]; the
    abundances are [uint32_t]. *)
Record node_t : Type := mk_node {
  unitig : std_string;
  length_ : Z;
  abundances : list N;
  arcs : list arc_t;
  average_abundance : double;
  median_abundance : N
}.

(** Modelled from the spec: the members of class [DBG] that the constructor
    sets and the methods below read. [kmer_size] is a [uint32_t]. *)
Record DBG : Type := mk_DBG {
  bcalm_file_name : std_string;
  kmer_size : N;
  debug : bool;
  nodes : list node_t
}.

(** ** DBG::reverse_complement *)

Definition complement (c : ascii) : option ascii :=
  match c with
  | "A"%char | "a"%char => Some "T"%char
  | "C"%char | "c"%char => Some "G"%char
  | "T"%char | "t"%char => Some "A"%char
  | "G"%char | "g"%char => Some "C"%char
  | _ => None
  end.

(** The loop [for (i = 0; i < s.length(); i++)]: [rest] holds [s[i..]],
    [len] is [s.length()] and [rc] is the copy being overwritten. *)
Fixpoint reverse_complement_loop (rest : std_string) (i len : nat)
    (rc : std_string) : outcome std_string :=
  match rest with
  | [] => Ret rc
  | x :: rest' =>
      match complement x with
      | None => Exit EXIT_FAILURE
      | Some c => reverse_complement_loop rest' (S i) len (<[len - 1 - i := c]> rc)
      end
  end.

Definition reverse_complement (s : std_string) : outcome std_string :=
  reverse_complement_loop s 0 (length s) s.

(** ** DBG::spell *)

(** [kmer_size - 1], computed on [uint32_t]. *)
Definition kmer_size_minus_1 (g : DBG) : Z := to_uint32 (Z.of_N (kmer_size g) - 1).

(** What one pass of the loop [for (i = 1; i < path_nodes.size(); i++)]
    appends to [contig]. *)
Definition spell_extension (g : DBG) (node : node_t) (f : bool) : outcome std_string :=
  if f then substr_from (unitig node) (kmer_size_minus_1 g)
  else
    let len := to_size_t (size (unitig node) - kmer_size_minus_1 g) in
    s ← substr (unitig node) 0 len;
    reverse_complement s.

Fixpoint spell_loop (g : DBG) (path_nodes : list node_idx_t) (forwards : list bool)
    (i count : nat) (contig : std_string) : outcome std_string :=
  match count with
  | O => Ret contig
  | S count' =>
      f ← vec_index forwards i;
      v ← vec_index path_nodes i;
      node ← vec_at (nodes g) v;
      piece ← spell_extension g node f;
      spell_loop g path_nodes forwards (S i) count' (contig ++ piece)
  end.

Definition spell (g : DBG) (path_nodes : list node_idx_t) (forwards : list bool)
    : outcome std_string :=
  if decide (length path_nodes ≠ length forwards) then Exit EXIT_FAILURE
  else if decide (path_nodes = []) then Exit EXIT_FAILURE
  else
    f ← vec_index forwards 0;
    v ← vec_index path_nodes 0;
    node ← vec_at (nodes g) v;
    contig ← (if f : bool then Ret (unitig node) else reverse_complement (unitig node));
    spell_loop g path_nodes forwards 1 (length path_nodes - 1) contig.

(** ** DBG::get_counts *)

(** [for (int k = k0; k > -1; k--) counts.push_back(ab[k])], entered with
    [n = k0 + 1] passes left. *)
Fixpoint read_backward (ab : list N) (n : nat) (counts : list N) : outcome (list N) :=
  match n with
  | O => Ret counts
  | S k => x ← vec_index ab k; read_backward ab k (counts ++ [x])
  end.

(** [int(abundances.size() - 1)]: the subtraction is on [size_t], the cast
    keeps the low 32 bits. *)
Definition last_abundance_index (ab : list N) : Z := to_int (to_size_t (size ab - 1)).

Fixpoint get_counts_loop (g : DBG) (path_nodes : list node_idx_t) (forwards : list bool)
    (i count : nat) (counts : list N) : outcome (list N) :=
  match count with
  | O => Ret counts
  | S count' =>
      f ← vec_index forwards i;
      v ← vec_index path_nodes i;
      node ← vec_at (nodes g) v;
      counts' ← (if f : bool then Ret (counts ++ abundances node)
                 else read_backward (abundances node)
                        (Z.to_nat (last_abundance_index (abundances node) + 1)) counts);
      get_counts_loop g path_nodes forwards (S i) count' counts'
  end.

(** [counts] is passed by reference and is not cleared. *)
Definition get_counts (g : DBG) (path_nodes : list node_idx_t) (forwards : list bool)
    (counts : list N) : outcome (list N) :=
  get_counts_loop g path_nodes forwards 0 (length path_nodes) counts.

(** ** DBG::check_path_consistency *)

(** The inner loop over the arcs of [path_nodes[i]]; [found] is the flag. *)
Fixpoint find_consistent_arc (path_nodes : list node_idx_t) (forwards : list bool)
    (i : nat) (l : list arc_t) (found : bool) : outcome bool :=
  match l with
  | [] => Ret found
  | arc :: l' =>
      f ← vec_index forwards i;
      if bool_decide (forward arc = f) then
        w ← vec_index path_nodes (i + 1);
        find_consistent_arc path_nodes forwards i l'
          (if bool_decide (successor arc = w) then true else found)
      else find_consistent_arc path_nodes forwards i l' found
  end.

Fixpoint check_path_consistency_loop (g : DBG) (path_nodes : list node_idx_t)
    (forwards : list bool) (i count : nat) : outcome bool :=
  match count with
  | O => Ret true
  | S count' =>
      v ← vec_index path_nodes i;
      node ← vec_at (nodes g) v;
      found ← find_consistent_arc path_nodes forwards i (arcs node) false;
      if found : bool then check_path_consistency_loop g path_nodes forwards (S i) count'
      else Ret false
  end.

(** The bound [path_nodes.size() - 1] is a [size_t]. *)
Definition check_path_consistency (g : DBG) (path_nodes : list node_idx_t)
    (forwards : list bool) : outcome bool :=
  if decide (length path_nodes ≠ length forwards) then Ret false
  else check_path_consistency_loop g path_nodes forwards 0
         (Z.to_nat (to_size_t (size path_nodes - 1))).

(** ** DBG::get_nodes_from *)

(** The three vectors are passed by reference: the result is what they hold
    when the call ends, and how it ended ([mask.at] and [nodes.at] throw). *)
Fixpoint get_nodes_from_loop (l : list arc_t) (mask : list bool)
    (forwards : list bool) (to_nodes : list node_idx_t) (to_forwards : list bool)
    : (list bool * list node_idx_t * list bool) * outcome () :=
  match l with
  | [] => ((forwards, to_nodes, to_forwards), Ret ())
  | arc :: l' =>
      match mask !! N.to_nat (successor arc) with
      | None => ((forwards, to_nodes, to_forwards), Throw)
      | Some true => get_nodes_from_loop l' mask forwards to_nodes to_forwards
      | Some false =>
          get_nodes_from_loop l' mask (forwards ++ [forward arc])
            (to_nodes ++ [successor arc]) (to_forwards ++ [to_forward arc])
      end
  end.

(** [to_nodes.clear(); to_forwards.clear();] come first, then the loop. *)
Definition get_nodes_from (g : DBG) (node : node_idx_t) (forwards : list bool)
    (to_nodes : list node_idx_t) (to_forwards : list bool) (mask : list bool)
    : (list bool * list node_idx_t * list bool) * outcome () :=
  match nodes g !! N.to_nat node with
  | None => ((forwards, [], []), Throw)
  | Some n => get_nodes_from_loop (arcs n) mask forwards [] []
  end.

(** ** DBG::overlaps and DBG::verify_overlaps *)

(** [nodes[arcs.successor]] is unchecked. *)
Definition overlaps (g : DBG) (node : node_t) (a : arc_t) : outcome bool :=
  u1 ← (if forward a then
          substr_from (unitig node) (to_size_t (size (unitig node) - Z.of_N (kmer_size g) + 1))
        else
          s ← substr (unitig node) 0 (kmer_size_minus_1 g); reverse_complement s);
  u2 ← (if to_forward a then
          succ ← vec_index (nodes g) (N.to_nat (successor a));
          substr (unitig succ) 0 (kmer_size_minus_1 g)
        else
          succ ← vec_index (nodes g) (N.to_nat (successor a));
          s ← substr_from (unitig succ)
                (to_size_t (size (unitig succ) - Z.of_N (kmer_size g) + 1));
          reverse_complement s);
  Ret (bool_decide (u1 = u2)).

Fixpoint verify_overlaps_arcs (g : DBG) (node : node_t) (l : list arc_t) : outcome bool :=
  match l with
  | [] => Ret true
  | a :: l' =>
      ok ← overlaps g node a;
      if ok : bool then verify_overlaps_arcs g node l' else Ret false
  end.

Fixpoint verify_overlaps_nodes (g : DBG) (l : list node_t) : outcome bool :=
  match l with
  | [] => Ret true
  | node :: l' =>
      ok ← verify_overlaps_arcs g node (arcs node);
      if ok : bool then verify_overlaps_nodes g l' else Ret false
  end.

Definition verify_overlaps (g : DBG) : outcome bool := verify_overlaps_nodes g (nodes g).

(** ** Text output and input: operator<< on numbers, operator>> on strings *)

(** [file << n] for a number [n]: its decimal digits. *)
Definition to_string (z : Z) : std_string := str (NilZero.string_of_int (Z.to_int z)).

Definition isspace (c : ascii) : bool :=
  let n := nat_of_ascii c in bool_decide (n = 32 ∨ (9 ≤ n ∧ n ≤ 13)).

(** The tokens [stream >> tok] successively reads from a stream holding [s];
    [cur] is the token being read, last character first. *)
Fixpoint tokens_from (s : std_string) (cur : std_string) : list std_string :=
  match s with
  | [] => match cur with [] => [] | _ => [reverse cur] end
  | c :: s' =>
      if isspace c then
        match cur with
        | [] => tokens_from s' []
        | _ => reverse cur :: tokens_from s' []
        end
      else tokens_from s' (c :: cur)
  end.

Definition tokens (s : std_string) : list std_string := tokens_from s [].

(** Files by name. Opening a missing file for reading gives a stream on which
    every read fails. *)
Abbreviation filesystem := (gmap std_string std_string).

Definition read_tokens (fs : filesystem) (name : std_string) : list std_string :=
  match fs !! name with
  | Some content => tokens content
  | None => []
  end.

(** ** DBG::to_bcalm_file *)

Definition sign (b : bool) : std_string := if b then str "+" else str "-".

Definition arc_to_bcalm (a : arc_t) : std_string :=
  str "L:" ++ sign (forward a) ++ str ":" ++ to_string (Z.of_N (successor a))
    ++ str ":" ++ sign (to_forward a) ++ str " ".

Definition node_to_bcalm (id : Z) (node : node_t) : std_string :=
  str ">" ++ to_string id ++ str " LN:i:" ++ to_string (length_ node) ++ str " ab:Z:"
    ++ concat (map (λ ab, to_string (Z.of_N ab) ++ str " ") (abundances node))
    ++ concat (map arc_to_bcalm (arcs node))
    ++ ["010"%char] ++ unitig node ++ ["010"%char].

(** [id] is an [int]: [id++] overflows at [INT_MAX]. *)
Fixpoint to_bcalm_loop (l : list node_t) (id : Z) (file : std_string) : outcome std_string :=
  match l with
  | [] => Ret file
  | node :: l' =>
      if (id =? INT_MAX)%Z then Undefined
      else to_bcalm_loop l' (id + 1)%Z (file ++ node_to_bcalm id node)
  end.

(** The content written to [file_name]. *)
Definition to_bcalm_file (g : DBG) : outcome std_string := to_bcalm_loop (nodes g) 0%Z [].

(** ** DBG::validate *)

(** [while (bcalm_dbg >> tok1 && this_dbg >> tok2) if (tok1 != tok2) return false;
    return true;] *)
Fixpoint validate_loop (bcalm_dbg this_dbg : list std_string) : bool :=
  match bcalm_dbg, this_dbg with
  | tok1 :: bcalm_dbg', tok2 :: this_dbg' =>
      if bool_decide (tok1 ≠ tok2) then false else validate_loop bcalm_dbg' this_dbg'
  | _, _ => true
  end.

Definition fasta_dbg_name (g : DBG) : std_string :=
  str "unitigs.k" ++ to_string (Z.of_N (kmer_size g)) ++ str ".ustar.fa".

(** Returns the verdict and the files as [validate] leaves them. *)
Definition validate (g : DBG) (fs : filesystem) : outcome (bool * filesystem) :=
  content ← to_bcalm_file g;
  let fs' := <[fasta_dbg_name g := content]> fs in
  Ret (validate_loop (read_tokens fs' (bcalm_file_name g))
         (read_tokens fs' (fasta_dbg_name g)), fs').

(** ** DBG::verify_input and the driver's process_single_file *)

(** What the driver does that can be observed: lines on [cout] and [cerr], and
    the calls into [SPSS] and [Encoder], whose code is outside these sources.
    The line [validate] prints on [cerr] at the first tokens that differ is
    left out. *)
Inductive event : Type :=
  | cout (line : std_string)
  | cerr (line : std_string)
  | print_stat
  | compute_path_cover
  | extract_simplitigs_and_counts
  | encode
  | to_fasta_file (name : std_string)
  | to_counts_file (name : std_string).


Module params.

(** The fields of [params_t] but the three whose enum types are declared
    outside these sources (encoding, seeding and extending method). *)
Record params_t : Type := mk {
  input_file_name : std_string;
  fasta_file_name : std_string;
  counts_file_name : std_string;
  kmer_size : Z;
  debug : bool;
  batch_mode : bool;
  skip_counts : bool
}.

End params.




(** ** parse_cli, option -k *)

Definition digit_value (c : ascii) : option Z :=
  let n := nat_of_ascii c in
  if bool_decide (48 ≤ n ∧ n ≤ 57) then Some (Z.of_nat n - 48)%Z else None.

Fixpoint atoi_digits (s : std_string) (acc : Z) : Z :=
  match s with
  | [] => acc
  | c :: s' =>
      match digit_value c with
      | Some d => atoi_digits s' (10 * acc + d)%Z
      | None => acc
      end
  end.

Fixpoint atoi_skip (s : std_string) : std_string :=
  match s with
  | c :: s' => if isspace c then atoi_skip s' else s
  | [] => []
  end.

(** <cstdlib> [atoi]: leading white space, an optional sign, digits; the
    behaviour is undefined when the value is not an [int]. *)
Definition atoi (s : std_string) : outcome Z :=
  let v :=
    match atoi_skip s with
    | "-"%char :: s' => (- atoi_digits s' 0)%Z
    | "+"%char :: s' => atoi_digits s' 0%Z
    | s' => atoi_digits s' 0%Z
    end in
  if bool_decide (INT_MIN ≤ v ≤ INT_MAX)%Z then Ret v else Undefined.

(** [case 'k'] of the option loop. *)
Definition parse_cli_k (optarg : std_string) (p : params.params_t)
    : outcome params.params_t :=
  v ← atoi optarg;
  let p' := params.mk (params.input_file_name p) (params.fasta_file_name p)
              (params.counts_file_name p) v (params.debug p) (params.batch_mode p)
              (params.skip_counts p) in
  if (params.kmer_size p' <=? 0)%Z then Exit EXIT_FAILURE
  else if (Z.rem (params.kmer_size p') 2 =? 0)%Z then Exit EXIT_SUCCESS
  else Ret p'.

(** ** DBG::parse_bcalm_file, a record of the alternative dialect *)

(** The value of a finite double rounded towards zero, and rounded down. *)
Definition truncate (m e : Z) : Z :=
  if (0 <=? e)%Z then (m * 2 ^ e)%Z else (m ÷ 2 ^ (- e))%Z.

Definition floor (m e : Z) : Z :=
  if (0 <=? e)%Z then (m * 2 ^ e)%Z else (m / 2 ^ (- e))%Z.

(** [0 <= d], for a double. *)
Definition double_nonneg (d : double) : Prop :=
  match d with
  | Finite m e => (0 ≤ m)%Z
  | Infinity negative => negative = false
  | NaN => False
  end.

(** [(uint32_t) d]: the value is truncated; the behaviour is undefined when the
    truncated value is not a [uint32_t]. *)
Definition double_to_uint32 (d : double) : outcome N :=
  match d with
  | Finite m e =>
      let t := truncate m e in
      if bool_decide (0 ≤ t < 2 ^ 32)%Z then Ret (Z.to_N t) else Undefined
  | _ => Undefined
  end.

(** Lines 157-182: the header of the alternative dialect gave the average
    [avg_abundance]; the header has no length. *)
Definition parse_alternative_abundance (avg_abundance : double) (l : list arc_t)
    : outcome node_t :=
  median ← double_to_uint32 avg_abundance;
  Ret (mk_node [] 0 [] l avg_abundance median).

(** [for (i = 0; i < n_kmers; i++) node.abundances.push_back((uint32_t) node.average_abundance)] *)
Fixpoint synthesize_abundances (n_kmers : nat) (avg : double) (ab : list N)
    : outcome (list N) :=
  match n_kmers with
  | O => Ret ab
  | S n => x ← double_to_uint32 avg; synthesize_abundances n avg (ab ++ [x])
  end.

(** Lines 204-239: the sequence line [line] has been read for [node]. *)
Definition read_sequence (k : N) (is_standard_format : bool) (node : node_t)
    (line : std_string) : outcome node_t :=
  node' ← (if is_standard_format then
             Ret (mk_node line (length_ node) (abundances node) (arcs node)
                    (average_abundance node) (median_abundance node))
           else
             let n_kmers := to_size_t (size line - Z.of_N k + 1) in
             ab ← synthesize_abundances (Z.to_nat n_kmers) (average_abundance node)
                    (abundances node);
             Ret (mk_node line (to_int (size line)) ab (arcs node)
                    (average_abundance node) (median_abundance node)));
  if bool_decide (to_size_t (size (unitig node') - Z.of_N k + 1) ≠ size (abundances node'))
  then Exit EXIT_FAILURE
  else Ret node'.

(** One record of the alternative dialect, from the parsed header to the node
    that [nodes.push_back] stores. *)
Definition parse_alternative_record (k : N) (avg_abundance : double) (l : list arc_t)
    (line : std_string) : outcome node_t :=
  node ← parse_alternative_abundance avg_abundance l;
  read_sequence k false node line.

(** ** The specification's words, for comparison with the code *)

(** [revcomp]: A<->T and C<->G whatever the case, upper case out, the string
    reversed; no result when another character occurs. *)
Definition revcomp (s : std_string) : option std_string := reverse <$> mapM complement s.

Definition nucleotide (c : ascii) : Prop := c ∈ str "ACGTacgt".
Definition upper_nucleotide (c : ascii) : Prop := c ∈ str "ACGT".

#[global] Instance nucleotide_dec c : Decision (nucleotide c) :=
  decide_rel elem_of c (str "ACGTacgt").

Definition toupper (c : ascii) : ascii :=
  let n := nat_of_ascii c in
  if bool_decide (97 ≤ n ∧ n ≤ 122) then ascii_of_nat (n - 32) else c.

(** A traversal step spells the unitig as stored, or its reverse complement. *)
Definition oriented_unitig (node : node_t) (f : bool) : option std_string :=
  if f then Some (unitig node) else revcomp (unitig node).

(** The last [n] characters of [s]. *)
Definition last_chars (n : Z) (s : std_string) : option std_string :=
  if bool_decide (0 ≤ n ≤ size s)%Z then Some (drop (Z.to_nat (size s - n)) s) else None.

(** What a step after the first contributes: the last [len - (k - 1)]
    characters of its oriented unitig. *)
Definition spelling_step (g : DBG) (step : node_idx_t * bool) : option std_string :=
  node ← nodes g !! N.to_nat step.1;
  o ← oriented_unitig node step.2;
  last_chars (size (unitig node) - (Z.of_N (kmer_size g) - 1)) o.

(** The spelling of a path of steps; an empty path has none. *)
Definition spelling (g : DBG) (path : list (node_idx_t * bool)) : option std_string :=
  match path with
  | [] => None
  | step :: rest =>
      node ← nodes g !! N.to_nat step.1;
      first ← oriented_unitig node step.2;
      exts ← mapM (spelling_step g) rest;
      Some (first ++ concat exts)
  end.

(** The abundances of a step: as stored, or reversed. *)
Definition oriented_abundances (g : DBG) (step : node_idx_t * bool) : list N :=
  match nodes g !! N.to_nat step.1 with
  | Some node => if step.2 then abundances node else reverse (abundances node)
  | None => []
  end.

Definition counts_of (g : DBG) (path : list (node_idx_t * bool)) : list N :=
  concat (map (oriented_abundances g) path).

(** Arc consistency between two consecutive steps, as P3 states it and as
    the code checks it. *)
Definition has_arc (g : DBG) (v : node_idx_t) (fv : bool) (w : node_idx_t) (fw : bool) : Prop :=
  ∃ node a, nodes g !! N.to_nat v = Some node ∧ a ∈ arcs node ∧
            forward a = fv ∧ successor a = w ∧ to_forward a = fw.

Definition has_arc_to (g : DBG) (v : node_idx_t) (fv : bool) (w : node_idx_t) : Prop :=
  ∃ node a, nodes g !! N.to_nat v = Some node ∧ a ∈ arcs node ∧
            forward a = fv ∧ successor a = w.

(** The arcs of a node whose target is not masked. *)
Definition unmasked (mask : list bool) (l : list arc_t) : list arc_t :=
  filter (λ a, mask !! N.to_nat (successor a) = Some false) l.

(** Positions [i], [i + 1], ... of the two vectors hold the steps [steps]. *)
Definition steps_at (path_nodes : list node_idx_t) (forwards : list bool) (i : nat)
    (steps : list (node_idx_t * bool)) : Prop :=
  ∀ j v f, steps !! j = Some (v, f) →
           path_nodes !! (i + j) = Some v ∧ forwards !! (i + j) = Some f.

(** The processing events that follow verification. *)
Definition is_processing (e : event) : Prop :=
  match e with
  | compute_path_cover | extract_simplitigs_and_counts | encode
  | to_fasta_file _ | to_counts_file _ => True
  | _ => False
  end.

#[global] Instance is_processing_dec e : Decision (is_processing e).
Proof. destruct e; simpl; apply _. Defined.

(** What the machine can hold: [kmer_size] is a [uint32_t] and no unitig is
    longer than a string can be. *)
Definition fits (g : DBG) : Prop :=
  (Z.of_N (kmer_size g) < 2 ^ 32)%Z ∧
  Forall (λ node, (size (unitig node) ≤ max_size)%Z) (nodes g).

(** A step whose oriented unitig and whose [len - (k - 1)] last characters
    exist: the node exists, [1 <= k <= len + 1], and a unitig taken in reverse
    is a nucleotide string. *)
Definition step_defined (g : DBG) (step : node_idx_t * bool) : Prop :=
  ∃ node, nodes g !! N.to_nat step.1 = Some node ∧
          (1 ≤ Z.of_N (kmer_size g) ≤ size (unitig node) + 1)%Z ∧
          (step.2 = false → Forall nucleotide (unitig node)).


(** ** Example inputs *)

Definition example_node (u : string) (ab : list N) (l : list arc_t) : node_t :=
  mk_node (str u) (size (str u)) ab l (Finite 0 0) 0.

(** Two unitigs for k = 3; ACGTA overlaps the reverse complement of GGTA,
    which is TACC. *)
Definition chain_graph : DBG :=
  mk_DBG (str "chain.unitigs.fa") 3 true
    [example_node "ACGTA" [2; 2; 1]%N [mk_arc true 1 false];
     example_node "GGTA" [1; 3]%N [mk_arc true 0 false]].

(** Scenario S1 of the specification: the arc does not overlap. *)
Definition s1_graph : DBG :=
  mk_DBG (str "s1.unitigs.fa") 3 true
    [example_node "ACGTA" [2; 2; 1]%N [mk_arc true 1 true];
     example_node "GTAC" [1; 3]%N []].

(** A unitig with a character that is no nucleotide; the parser reads it. *)
Definition n_graph : DBG :=
  mk_DBG (str "n.unitigs.fa") 3 false [example_node "ACNTA" [1; 1; 1]%N []].

(** A unitig shorter than k - 1 = 4 characters; only a graph built by hand
    has one, the parser asks for [len - k + 1] abundances. *)
Definition short_graph : DBG :=
  mk_DBG (str "short.unitigs.fa") 5 false
    [example_node "ACGTA" [1]%N []; example_node "AC" []%N []].

(** One record followed by a comment line, and the graph parsed from it. *)
Definition comment_file : std_string :=
  str ">0 LN:i:5 ab:Z:2 2 1" ++ ["010"%char] ++ str "ACGTA" ++ ["010"%char]
    ++ str "# end" ++ ["010"%char].

Definition comment_graph : DBG :=
  mk_DBG (str "c.unitigs.fa") 3 true [example_node "ACGTA" [2; 2; 1]%N []].

Definition comment_fs : filesystem := {[ str "c.unitigs.fa" := comment_file ]}.



Definition default_params : params.params_t :=
  params.mk [] [] [] 31 false false false.



(** Two unitigs for k = 3 joined by an arc that enters the second one
    reversed; the second one holds a character that is no nucleotide. *)
Definition unknown_graph : DBG :=
  mk_DBG (str "unknown.unitigs.fa") 3 false
    [example_node "ACGTA" [2; 2; 1]%N [mk_arc true 1 false];
     example_node "GGNTA" [1; 3; 1]%N [mk_arc true 0 false]].

(** * More of the code *)

(** ** DBG::get_consistent_nodes_from *)

(** The two vectors behind the references when the call ends, and how it
    ended. *)
Fixpoint get_consistent_nodes_from_loop (l : list arc_t) (fwd : bool) (mask : list bool)
    (to_nodes : list node_idx_t) (to_forwards : list bool)
    : (list node_idx_t * list bool) * outcome () :=
  match l with
  | [] => ((to_nodes, to_forwards), Ret ())
  | arc :: l' =>
      match mask !! N.to_nat (successor arc) with
      | None => ((to_nodes, to_forwards), Throw)
      | Some true => get_consistent_nodes_from_loop l' fwd mask to_nodes to_forwards
      | Some false =>
          if bool_decide (forward arc = fwd) then
            get_consistent_nodes_from_loop l' fwd mask
              (to_nodes ++ [successor arc]) (to_forwards ++ [to_forward arc])
          else get_consistent_nodes_from_loop l' fwd mask to_nodes to_forwards
      end
  end.

Definition get_consistent_nodes_from (g : DBG) (node : node_idx_t) (fwd : bool)
    (to_nodes : list node_idx_t) (to_forwards : list bool) (mask : list bool)
    : (list node_idx_t * list bool) * outcome () :=
  match nodes g !! N.to_nat node with
  | None => (([], []), Throw)
  | Some n => get_consistent_nodes_from_loop (arcs n) fwd mask [] []
  end.

(** ** DBG::estimate_n_nodes *)

(** [18 + kmer_size + 2]: the sum is computed on [uint32_t], then widened to
    [uintmax_t]. *)
Definition MINIMUM_ENTRY_SIZE (g : DBG) : Z :=
  to_uint32 (to_uint32 (18 + Z.of_N (kmer_size g)) + 2).

(** [file_size] is the constant 1000; the division is on [uintmax_t]. *)
Definition estimate_n_nodes (g : DBG) : outcome Z :=
  let file_size := 1000%Z in
  if (MINIMUM_ENTRY_SIZE g =? 0)%Z then Undefined
  else Ret (to_size_t (file_size / MINIMUM_ENTRY_SIZE g)).

(** ** The two ends that DBG::overlaps compares *)

(** The last [k - 1] characters of the unitig, or the reverse complement of
    its first [k - 1] characters. *)
Definition overlap_suffix (g : DBG) (node : node_t) (f : bool) : option std_string :=
  let k1 := Z.to_nat (Z.of_N (kmer_size g) - 1) in
  if f then Some (drop (length (unitig node) - k1) (unitig node))
  else revcomp (take k1 (unitig node)).

(** The first [k - 1] characters of the unitig, or the reverse complement of
    its last [k - 1] characters. *)
Definition overlap_prefix (g : DBG) (node : node_t) (f : bool) : option std_string :=
  let k1 := Z.to_nat (Z.of_N (kmer_size g) - 1) in
  if f then Some (take k1 (unitig node))
  else revcomp (drop (length (unitig node) - k1) (unitig node)).

Definition arc_overlaps (g : DBG) (node : node_t) (a : arc_t) : Prop :=
  ∃ succ x, nodes g !! N.to_nat (successor a) = Some succ ∧
            overlap_suffix g node (forward a) = Some x ∧
            overlap_prefix g succ (to_forward a) = Some x.

(** A graph on which [verify_overlaps] meets no error: [k >= 1], every arc
    leads to a node, and every unitig is a nucleotide string of at least
    [k - 1] characters. *)
Definition overlap_ready (g : DBG) : Prop :=
  (1 ≤ Z.of_N (kmer_size g))%Z ∧
  Forall (λ node, (Z.of_N (kmer_size g) - 1 ≤ size (unitig node))%Z ∧
                  Forall nucleotide (unitig node) ∧
                  Forall (λ a, is_Some (nodes g !! N.to_nat (successor a))) (arcs node))
         (nodes g).

(** An end that cannot be reverse-complemented ends the process. *)
Definition of_option (o : option std_string) : outcome std_string :=
  match o with
  | Some x => Ret x
  | None => Exit EXIT_FAILURE
  end.

(** ** std::string::rfind *)

Definition npos : Z := (2 ^ 64 - 1)%Z.

(** Tries the positions [n - 1], [n - 2], ..., 0. *)
Fixpoint rfind_down (s pat : std_string) (n : nat) : Z :=
  match n with
  | O => npos
  | S i =>
      if bool_decide (take (length pat) (drop i s) = pat) then Z.of_nat i
      else rfind_down s pat i
  end.

(** [s.rfind(pat)]: the last position where [pat] occurs in [s], or [npos]. *)
Definition rfind (s pat : std_string) : Z :=
  if (length s <? length pat)%nat then npos
  else rfind_down s pat (S (length s - length pat)).

(** ** The names of the output files *)

(** [base_name]: the input name from behind its last slash up to its last
    [.unitigs.fa]; the length [ext_pos - name_pos] is a [size_t]. *)
Definition base_name (input_file : std_string) : outcome std_string :=
  let ext_pos := rfind input_file (str ".unitigs.fa") in
  let slash_pos := rfind input_file (str "/") in
  let name_pos := if (slash_pos =? npos)%Z then 0%Z else to_size_t (slash_pos + 1) in
  substr input_file name_pos (to_size_t (ext_pos - name_pos)).

(** Lines 222-245 of [process_single_file]. [suffix] is
    [encoding_suffixes.at(params.encoding)], a table of [consts.h]. *)
Definition output_names (input_file output_prefix custom_fasta custom_counts
    suffix : std_string) : outcome (std_string * std_string) :=
  if bool_decide (custom_fasta ≠ []) then
    Ret (custom_fasta,
         if bool_decide (custom_counts = []) then custom_fasta ++ str ".counts"
         else custom_counts)
  else
    base ← base_name input_file;
    if bool_decide (output_prefix ≠ []) then
      Ret (output_prefix ++ base ++ str ".ustar.fa",
           output_prefix ++ base ++ str ".ustar" ++ suffix ++ str ".counts")
    else
      let slash_pos := rfind input_file (str "/") in
      input_dir ← (if (slash_pos =? npos)%Z then Ret []
                   else substr input_file 0 (to_size_t (slash_pos + 1)));
      Ret (input_dir ++ base ++ str ".ustar.fa",
           input_dir ++ base ++ str ".ustar" ++ suffix ++ str ".counts").

(** Lines 191-214 of [parse_cli], after the option loop: [got_input],
    [new_counts_name] and [new_fasta_name] are the flags the loop set. *)
Definition parse_cli_finish (got_input new_counts_name new_fasta_name : bool)
    (p : params.params_t) (suffix : std_string) : outcome params.params_t :=
  if negb got_input then Exit EXIT_FAILURE
  else
    let input := params.input_file_name p in
    let batch :=
      if negb (params.batch_mode p) && bool_decide (rfind input (str ".unitigs.fa") = npos)
      then true else params.batch_mode p in
    base ← base_name input;
    let fasta := if negb new_fasta_name && negb batch then base ++ str ".ustar.fa"
                 else params.fasta_file_name p in
    let counts := if negb new_counts_name && negb batch
                  then base ++ str ".ustar" ++ suffix ++ str ".counts"
                  else params.counts_file_name p in
    Ret (params.mk input fasta counts (params.kmer_size p) (params.debug p) batch
           (params.skip_counts p)).

(** Lines 339-342 of [main]: the prefix given with -o, made to end with a
    slash. *)
Definition batch_output_prefix (fasta_file_name : std_string) : std_string :=
  if bool_decide (fasta_file_name ≠ []) && negb (bool_decide (last fasta_file_name = Some "/"%char))
  then fasta_file_name ++ str "/" else fasta_file_name.

(** The names [main] makes [process_single_file] use in single-file mode: the
    names of [params] are passed as the custom names. *)
Definition single_file_names (p : params.params_t) (suffix : std_string)
    : outcome (std_string * std_string) :=
  output_names (params.input_file_name p) [] (params.fasta_file_name p)
    (params.counts_file_name p) suffix.

(** The names in batch mode, for one line of the list of files. *)
Definition batch_names (p : params.params_t) (input_file suffix : std_string)
    : outcome (std_string * std_string) :=
  output_names input_file (batch_output_prefix (params.fasta_file_name p)) [] [] suffix.

(** ** The loop of [main] over the list of files *)

(** [present] tells whether a file can be opened in the current state of the
    file system; [process] is the call of [process_single_file], which reads
    and writes files. An exception is caught and the loop goes on; the
    counters are [int]. Returns [file_count] and [success_count]. *)
Fixpoint batch_loop {state : Type} (present : state → std_string → bool)
    (process : std_string → state → state * outcome ())
    (lines : list std_string) (file_count success_count : Z) (fs : state)
    : state * outcome (Z * Z) :=
  match lines with
  | [] => (fs, Ret (file_count, success_count))
  | input_file :: lines' =>
      if bool_decide (input_file = []) then
        batch_loop present process lines' file_count success_count fs
      else if (file_count =? INT_MAX)%Z then (fs, Undefined)
      else
        let file_count := (file_count + 1)%Z in
        if negb (present fs input_file) then
          batch_loop present process lines' file_count success_count fs
        else
          match process input_file fs with
          | (fs', Ret _) =>
              batch_loop present process lines' file_count (success_count + 1)%Z fs'
          | (fs', Throw) => batch_loop present process lines' file_count success_count fs'
          | (fs', Exit status) => (fs', Exit status)
          | (fs', Undefined) => (fs', Undefined)
          end
  end.

(** Whether a call came back. *)
Definition returned {A} (o : outcome A) : bool :=
  match o with
  | Ret _ => true
  | _ => false
  end.

(** The lines of the list that name a file. *)
Definition listed (lines : list std_string) : list std_string :=
  filter (λ f, f ≠ []) lines.

(** ** A path walked from its other end *)

(** Notions used to state and prove how [spell] behaves on a reversed path;
    none of them is code of the program. *)

(** The complement where there is one, and the reverse complement it gives. *)
Definition complement_of (c : ascii) : ascii := default c (complement c).

Definition revcomp_of (s : std_string) : std_string := reverse (complement_of <$> s).

(** The string a step spells on a graph of nucleotide unitigs. *)
Definition step_string (g : DBG) (step : node_idx_t * bool) : std_string :=
  match nodes g !! N.to_nat step.1 with
  | Some node => if step.2 then unitig node else revcomp_of (unitig node)
  | None => []
  end.

(** Strings glued on [k1] characters: the first one, then each later one
    without its first [k1] characters. *)
Definition glue (k1 : nat) (os : list std_string) : std_string :=
  match os with
  | [] => []
  | o :: rest => o ++ concat (drop k1 <$> rest)
  end.

(** Each string ends with the [k1] characters the next one starts with. *)
Fixpoint chained (k1 : nat) (os : list std_string) : Prop :=
  match os with
  | a :: (b :: _) as rest => drop (length a - k1) a = take k1 b ∧ chained k1 rest
  | _ => True
  end.

(** A node whose unitig has at least [k - 1] characters, all of them upper-case
    nucleotides. *)
Definition upper_node (g : DBG) (v : node_idx_t) : Prop :=
  ∃ node, nodes g !! N.to_nat v = Some node ∧
          (Z.of_N (kmer_size g) - 1 ≤ size (unitig node))%Z ∧
          Forall upper_nucleotide (unitig node).

(** Consecutive steps of the path are joined by an arc of the graph that
    [overlaps] accepts. *)
Definition follows_overlaps (g : DBG) (path : list (node_idx_t * bool)) : Prop :=
  ∀ i u fu v fv, path !! i = Some (u, fu) → path !! S i = Some (v, fv) →
    ∃ nu a, nodes g !! N.to_nat u = Some nu ∧ a ∈ arcs nu ∧
            forward a = fu ∧ successor a = v ∧ to_forward a = fv ∧
            overlaps g nu a = Ret true.

(** The step taken in the opposite direction. *)
Definition flip_step (step : node_idx_t * bool) : node_idx_t * bool :=
  (step.1, negb step.2).

(** * Properties *)

(** ** Machine integers in range *)

Lemma to_uint32_id z : (0 ≤ z < 2 ^ 32)%Z → to_uint32 z = z.
Proof. intros. unfold to_uint32. by rewrite Z.mod_small. Qed.

Lemma to_size_t_id z : (0 ≤ z < 2 ^ 64)%Z → to_size_t z = z.
Proof. intros. unfold to_size_t. by rewrite Z.mod_small. Qed.

Lemma to_int_id z : (- 2 ^ 31 ≤ z < 2 ^ 31)%Z → to_int z = z.
Proof. intros. unfold to_int. rewrite Z.mod_small; lia. Qed.

Lemma size_nonneg {A} (v : list A) : (0 ≤ size v)%Z.
Proof. unfold size. lia. Qed.

Lemma kmer_size_minus_1_id g :
  (1 ≤ Z.of_N (kmer_size g) < 2 ^ 32)%Z → kmer_size_minus_1 g = (Z.of_N (kmer_size g) - 1)%Z.
Proof. intros. unfold kmer_size_minus_1. apply to_uint32_id. lia. Qed.

(** ** reverse_complement against revcomp *)

(** Splits [H : complement c = Some c'] into the eight characters [c] can be. *)
Ltac complement_cases H :=
  unfold complement in H;
  repeat match type of H with
         | context [match ?x with _ => _ end] => destruct x; try discriminate
         end.

Lemma complement_nucleotide c : nucleotide c ↔ is_Some (complement c).
Proof.
  unfold nucleotide. split.
  - intros H. repeat (apply elem_of_cons in H as [-> | H]; [by eexists |]).
    by apply elem_of_nil in H.
  - intros [c' H]. complement_cases H; vm_compute; set_solver.
Qed.

Lemma reverse_complement_loop_ok rest : ∀ pre post cs,
  length pre = length rest →
  mapM complement rest = Some cs →
  reverse_complement_loop rest (length post) (length pre + length post) (pre ++ post)
  = Ret (reverse cs ++ post).
Proof.
  induction rest as [| x rest IH]; intros pre post cs Hlen Hcs.
  - destruct pre; [| done]. apply mapM_Some in Hcs. by inversion Hcs.
  - apply mapM_Some in Hcs. inversion Hcs as [| ? c ? cs' Hx Hrest]; subst.
    apply mapM_Some in Hrest.
    destruct pre as [| y pre _] using rev_ind; [done |].
    rewrite length_app in Hlen. simpl in Hlen.
    cbn [reverse_complement_loop]. rewrite Hx.
    replace (length (pre ++ [y]) + length post - 1 - length post) with (length pre + 0)
      by (rewrite length_app; simpl; lia).
    rewrite <- (assoc_L (++)), insert_app_r. simpl.
    replace (length (pre ++ [y]) + length post) with (length pre + length (c :: post))
      by (rewrite length_app; simpl; lia).
    etrans; [apply (IH pre (c :: post) cs'); done || lia |].
    by rewrite reverse_cons, <- (assoc_L (++)).
Qed.

Lemma reverse_complement_loop_exit rest : ∀ i len rc,
  mapM complement rest = None →
  reverse_complement_loop rest i len rc = Exit EXIT_FAILURE.
Proof.
  induction rest as [| x rest IH]; intros i len rc H; [done |].
  simpl in *. destruct (complement x); [| done].
  apply IH. by destruct (mapM complement rest).
Qed.

(** The loop of [reverse_complement] computes [revcomp], and leaves through
    [exit(EXIT_FAILURE)] exactly when [revcomp] has no result. *)
Lemma reverse_complement_revcomp s :
  reverse_complement s = match revcomp s with
                         | Some r => Ret r
                         | None => Exit EXIT_FAILURE
                         end.
Proof.
  unfold reverse_complement, revcomp.
  destruct (mapM complement s) as [cs |] eqn:H; simpl.
  - pose proof (reverse_complement_loop_ok s s [] cs eq_refl H) as E.
    cbn [length] in E. rewrite Nat.add_0_r in E. by rewrite !(right_id_L [] (++)) in E.
  - by apply reverse_complement_loop_exit.
Qed.

Lemma revcomp_length s r : revcomp s = Some r → length r = length s.
Proof.
  unfold revcomp. destruct (mapM complement s) as [cs |] eqn:H; [| done].
  intros [= <-]. apply mapM_Some, Forall2_length in H. by rewrite length_reverse.
Qed.

Lemma revcomp_nucleotide s : Forall nucleotide s → is_Some (revcomp s).
Proof.
  intros H. unfold revcomp. apply fmap_is_Some, mapM_is_Some.
  eapply Forall_impl; [done |]. intros c. apply complement_nucleotide.
Qed.

Lemma complement_twice c c' c'' :
  complement c = Some c' → complement c' = Some c'' → c'' = toupper c.
Proof.
  intros H. complement_cases H; injection H as <-; by intros [= <-].
Qed.

Lemma complement_complement c c' : complement c = Some c' → is_Some (complement c').
Proof.
  intros H. complement_cases H; injection H as <-; by eexists.
Qed.

Lemma toupper_upper_nucleotide c : upper_nucleotide c → toupper c = c.
Proof.
  unfold upper_nucleotide. intros H.
  repeat (apply elem_of_cons in H as [-> | H]; [done |]). by apply elem_of_nil in H.
Qed.

Lemma mapM_complement_twice s cs :
  mapM complement s = Some cs → mapM complement cs = Some (toupper <$> s).
Proof.
  intros H. apply mapM_Some in H. apply mapM_Some.
  induction H as [| c c' s cs Hc _ IH]; [constructor |].
  simpl. constructor; [| done].
  destruct (complement_complement _ _ Hc) as [c'' Hc'].
  rewrite Hc'. f_equal. eauto using complement_twice.
Qed.

Lemma mapM_reverse {A B} (f : A → option B) l k :
  mapM f l = Some k → mapM f (reverse l) = Some (reverse k).
Proof. rewrite !mapM_Some. apply Forall2_reverse. Qed.

Lemma revcomp_twice s r : revcomp s = Some r → revcomp r = Some (toupper <$> s).
Proof.
  unfold revcomp. destruct (mapM complement s) as [cs |] eqn:H; [| done].
  intros [= <-]. apply mapM_complement_twice, mapM_reverse in H.
  rewrite H. simpl. by rewrite reverse_involutive.
Qed.

(** ** C7: applying reverse_complement twice *)

(** Lower-case input is accepted and comes back in upper case: the reverse
    complement of "a" is "T", whose reverse complement is "A". *)
Lemma reverse_complement_twice_lower_case :
  Forall nucleotide (str "a") ∧
  reverse_complement (str "a") = Ret (str "T") ∧
  reverse_complement (str "T") = Ret (str "A") ∧
  str "A" ≠ str "a".
Proof. split; [refine (bool_decide_unpack _ _); by vm_compute | done]. Qed.

(** C7: for every string [x] over A, C, G, T, [reverse_complement] returns on
    [x] and on its result, and the second result is [x] itself. Letters in
    lower case are accepted on input as well, and then the second result is
    [x] in upper case. *)
Theorem reverse_complement_twice x :
  Forall nucleotide x →
  ∃ y, reverse_complement x = Ret y ∧
       reverse_complement y = Ret (toupper <$> x) ∧
       (Forall upper_nucleotide x → reverse_complement y = Ret x).
Proof.
  intros Hx. destruct (revcomp_nucleotide x Hx) as [y Hy].
  exists y. rewrite !reverse_complement_revcomp, Hy, (revcomp_twice _ _ Hy).
  split_and!; [done.. |].
  intros Hup. f_equal. rewrite <- (list_fmap_id x) at 2.
  apply Forall_fmap_ext. eapply Forall_impl; [done |].
  intros c. apply toupper_upper_nucleotide.
Qed.

Lemma reverse_complement_twice_witness :
  Forall nucleotide (str "AcGTt") ∧
  ∃ y, reverse_complement (str "AcGTt") = Ret y ∧
       reverse_complement y = Ret (toupper <$> str "AcGTt") ∧
       (Forall upper_nucleotide (str "AcGTt") → reverse_complement y = Ret (str "AcGTt")).
Proof.
  assert (H : Forall nucleotide (str "AcGTt"))
    by (refine (bool_decide_unpack _ _); by vm_compute).
  exact (conj H (reverse_complement_twice (str "AcGTt") H)).
Defined.

(** ** Steps read by index *)

Section steps.

Context (path_nodes : list node_idx_t) (forwards : list bool).

Lemma steps_at_zip i :
  steps_at path_nodes forwards i (drop i (zip path_nodes forwards)).
Proof.
  intros j v f H. rewrite lookup_drop in H. by apply lookup_zip_Some in H.
Qed.

Lemma steps_at_tail i step steps :
  steps_at path_nodes forwards i (step :: steps) →
  steps_at path_nodes forwards (S i) steps.
Proof.
  intros H j v f Hj. specialize (H (S j) v f Hj).
  by rewrite <- Nat.add_succ_comm in H.
Qed.

Lemma steps_at_head i v f steps :
  steps_at path_nodes forwards i ((v, f) :: steps) →
  vec_index forwards i = Ret f ∧ vec_index path_nodes i = Ret v.
Proof.
  intros H. destruct (H 0 v f eq_refl) as [Hv Hf].
  rewrite Nat.add_0_r in Hv, Hf. unfold vec_index. by rewrite Hv, Hf.
Qed.

End steps.

Lemma vec_at_lookup {A} (v : list A) i x : v !! N.to_nat i = Some x → vec_at v i = Ret x.
Proof. intros H. unfold vec_at. by rewrite H. Qed.

Lemma fits_unitig g v node :
  fits g → nodes g !! v = Some node → (size (unitig node) ≤ max_size)%Z.
Proof.
  intros [_ H] Hv. rewrite Forall_lookup in H. exact (H _ _ Hv).
Qed.

(** ** spell against the specification's spelling *)

Lemma last_chars_Some n s r :
  last_chars n s = Some r → (0 ≤ n ≤ size s)%Z ∧ r = drop (Z.to_nat (size s - n)) s.
Proof. unfold last_chars. case_bool_decide; [| done]. by intros [= <-]. Qed.

Lemma oriented_unitig_size node f o :
  oriented_unitig node f = Some o → size o = size (unitig node).
Proof.
  destruct f; simpl; [by intros [= <-] |].
  intros H. unfold size. by rewrite (revcomp_length _ _ H).
Qed.

Lemma mapM_complement_take n s cs :
  mapM complement s = Some cs → mapM complement (take n s) = Some (take n cs).
Proof. rewrite !mapM_Some. apply Forall2_take. Qed.

Lemma spell_extension_ok g node f o ext :
  (Z.of_N (kmer_size g) < 2 ^ 32)%Z →
  (size (unitig node) ≤ max_size)%Z →
  oriented_unitig node f = Some o →
  last_chars (size (unitig node) - (Z.of_N (kmer_size g) - 1)) o = Some ext →
  spell_extension g node f = Ret ext.
Proof.
  intros Hk Hmax Ho Hext.
  pose proof (oriented_unitig_size _ _ _ Ho) as Hsize.
  apply last_chars_Some in Hext as [Hn ->]. rewrite Hsize in *.
  pose proof (size_nonneg (unitig node)).
  unfold spell_extension. rewrite kmer_size_minus_1_id by lia.
  destruct f; simpl in Ho.
  - injection Ho as <-. unfold substr_from.
    rewrite (proj2 (Z.ltb_ge _ _)) by lia. do 2 f_equal. lia.
  - unfold max_size in Hmax. rewrite to_size_t_id by lia. unfold substr.
    rewrite (proj2 (Z.ltb_ge _ _)) by lia. simpl. rewrite drop_0.
    rewrite reverse_complement_revcomp.
    unfold revcomp in *. destruct (mapM complement (unitig node)) as [cs |] eqn:Hcs; [| done].
    injection Ho as <-.
    rewrite (mapM_complement_take _ _ _ Hcs). simpl. f_equal.
    rewrite reverse_take. f_equal.
    apply mapM_Some, Forall2_length in Hcs. unfold size in *. lia.
Qed.

Lemma spell_loop_ok g path_nodes forwards :
  fits g →
  ∀ steps i contig exts,
    steps_at path_nodes forwards i steps →
    mapM (spelling_step g) steps = Some exts →
    spell_loop g path_nodes forwards i (length steps) contig = Ret (contig ++ concat exts).
Proof.
  intros Hfits steps.
  induction steps as [| [v f] steps IH]; intros i contig exts Hat Hexts.
  - apply mapM_Some in Hexts. inversion Hexts. simpl. by rewrite (right_id_L [] (++)).
  - apply mapM_Some in Hexts.
    inversion Hexts as [| ? ext ? exts' Hstep Hrest]; subst.
    apply mapM_Some in Hrest.
    destruct (steps_at_head _ _ _ _ _ _ Hat) as [Hf Hv].
    cbn [length spell_loop]. rewrite Hf, Hv. simpl.
    unfold spelling_step in Hstep. simpl in Hstep.
    destruct (nodes g !! N.to_nat v) as [node |] eqn:Hnode; [| done]. simpl in Hstep.
    destruct (oriented_unitig node f) as [o |] eqn:Ho; [| done]. simpl in Hstep.
    rewrite (vec_at_lookup _ _ _ Hnode). simpl.
    rewrite (spell_extension_ok g node f o ext); [| apply Hfits | by eapply fits_unitig | done..].
    simpl. rewrite (IH (S i) _ exts'); [| by eapply steps_at_tail | done].
    by rewrite <- (assoc_L (++)).
Qed.

Lemma spell_ok g path_nodes forwards s :
  fits g →
  length path_nodes = length forwards →
  spelling g (zip path_nodes forwards) = Some s →
  spell g path_nodes forwards = Ret s.
Proof.
  intros Hfits Hlen Hs. unfold spell.
  destruct (decide (length path_nodes ≠ length forwards)); [done |].
  destruct path_nodes as [| v path_nodes], forwards as [| f forwards]; try done.
  destruct (decide (v :: path_nodes = [])); [done |].
  simpl in Hs. simpl.
  destruct (nodes g !! N.to_nat v) as [node |] eqn:Hnode; [| done]. simpl in Hs.
  destruct (oriented_unitig node f) as [first |] eqn:Hfirst; [| done]. simpl in Hs.
  destruct (mapM (spelling_step g) (zip path_nodes forwards)) as [exts |] eqn:Hexts; [| done].
  injection Hs as <-.
  rewrite (vec_at_lookup _ _ _ Hnode). simpl.
  assert ((if f then Ret (unitig node) else reverse_complement (unitig node)) = Ret first)
    as ->.
  { destruct f; simpl in Hfirst; [by injection Hfirst as <- |].
    by rewrite reverse_complement_revcomp, Hfirst. }
  simpl. rewrite Nat.sub_0_r.
  replace (length path_nodes) with (length (zip path_nodes forwards))
    by (rewrite length_zip_with; simpl in Hlen; lia).
  apply spell_loop_ok; [done | | done].
  intros j v' f' Hj. apply lookup_zip_Some in Hj. by simpl.
Qed.

Lemma spelling_step_defined g step :
  step_defined g step → is_Some (spelling_step g step).
Proof.
  intros (node & Hnode & Hk & Hnuc). unfold spelling_step. rewrite Hnode. simpl.
  assert (is_Some (oriented_unitig node step.2)) as [o Ho].
  { destruct step.2; simpl; [done |]. by apply revcomp_nucleotide, Hnuc. }
  rewrite Ho. simpl. unfold last_chars.
  rewrite (oriented_unitig_size _ _ _ Ho). rewrite bool_decide_true; [done | lia].
Qed.

Lemma spelling_defined g path :
  path ≠ [] → Forall (step_defined g) path → is_Some (spelling g path).
Proof.
  intros Hne Hall. destruct path as [| step rest]; [done |].
  apply Forall_cons in Hall as [(node & Hnode & Hk & Hnuc) Hrest]. simpl.
  rewrite Hnode. simpl.
  assert (is_Some (oriented_unitig node step.2)) as [o ->].
  { destruct step.2; simpl; [done |]. by apply revcomp_nucleotide, Hnuc. }
  simpl.
  assert (is_Some (mapM (spelling_step g) rest)) as [exts ->]; [| done].
  apply mapM_is_Some. eapply Forall_impl; [done |]. apply spelling_step_defined.
Qed.

(** ** C1: what spell returns *)

(** C1, as stated, fails: the path is not empty, the two vectors have the same
    length and both indices are valid, yet [spell] returns no string: the
    second step takes GGNTA in reverse and [reverse_complement] leaves through
    [exit(EXIT_FAILURE)] on the N. *)
Lemma spell_no_string_on_unknown_nucleotide :
  [0; 1]%N ≠ [] ∧ length [0; 1]%N = length [true; false] ∧
  Forall (λ v, is_Some (nodes unknown_graph !! N.to_nat v)) [0; 1]%N ∧
  spell unknown_graph [0; 1]%N [true; false] = Exit EXIT_FAILURE ∧
  ¬ returns (spell unknown_graph [0; 1]%N [true; false]).
Proof.
  split_and!; [done | done | repeat constructor; by eexists | reflexivity |].
  by intros [s Hs].
Qed.

(** C1, amended: for a path given by node and orientation vectors of equal
    length, whenever the string the specification describes exists (the first
    step's oriented unitig followed, for each later step, by the last
    [len - (k - 1)] characters of its oriented unitig), [spell] returns that
    string; and for every non-empty path over valid node indices whose
    unitigs have at least [k - 1] characters ([k >= 1]) and whose unitigs
    taken in reverse are nucleotide strings, the string exists and [spell]
    returns it. *)
Theorem spell_spelling g path_nodes forwards :
  fits g →
  length path_nodes = length forwards →
  (∀ s, spelling g (zip path_nodes forwards) = Some s →
        spell g path_nodes forwards = Ret s) ∧
  (path_nodes ≠ [] → Forall (step_defined g) (zip path_nodes forwards) →
   ∃ s, spelling g (zip path_nodes forwards) = Some s ∧
        spell g path_nodes forwards = Ret s).
Proof.
  intros Hfits Hlen. split.
  - intros s. by apply spell_ok.
  - intros Hne Hall.
    destruct (spelling_defined g (zip path_nodes forwards)) as [s Hs]; [| done |].
    { destruct path_nodes, forwards; done. }
    exists s. split; [done |]. by apply spell_ok.
Qed.

Lemma fits_chain_graph : fits chain_graph.
Proof. split; [done |]. repeat constructor; by vm_compute. Qed.

Lemma step_defined_chain_graph :
  Forall (step_defined chain_graph) (zip [0; 1]%N [true; false]).
Proof.
  repeat constructor.
  - eexists. split_and!; [reflexivity | by vm_compute.. | done].
  - eexists. split_and!; [reflexivity | by vm_compute.. |].
    intros _. refine (bool_decide_unpack _ _). by vm_compute.
Qed.

Lemma spell_spelling_witness :
  (spelling chain_graph (zip [0; 1]%N [true; false]) = Some (str "ACGTACC") ∧
   spell chain_graph [0; 1]%N [true; false] = Ret (str "ACGTACC")) ∧
  ∃ s, spelling chain_graph (zip [0; 1]%N [true; false]) = Some s ∧
       spell chain_graph [0; 1]%N [true; false] = Ret s.
Proof.
  assert (H : spelling chain_graph (zip [0; 1]%N [true; false]) = Some (str "ACGTACC"))
    by reflexivity.
  pose proof (spell_spelling chain_graph [0; 1]%N [true; false]
                fits_chain_graph eq_refl) as [Hret Hexists].
  split.
  - exact (conj H (Hret _ H)).
  - apply Hexists; [done | apply step_defined_chain_graph].
Defined.

(** ** C10: the guards of spell *)

(** C10, as stated, fails: the path is not empty, the vectors have the same
    length and the index is valid, yet [spell] leaves through
    [exit(EXIT_FAILURE)] in [reverse_complement], on the N of the unitig. *)
Lemma spell_exits_on_unknown_nucleotide :
  [0%N] ≠ [] ∧ length [0%N] = length [false] ∧
  is_Some (nodes n_graph !! N.to_nat 0) ∧
  spell n_graph [0%N] [false] = Exit EXIT_FAILURE.
Proof. split_and!; [done | done | by eexists | reflexivity]. Qed.

(** C10, amended: [spell] leaves through [exit(EXIT_FAILURE)] whenever the
    vectors differ in length or the path is empty; when the path is not
    empty, the vectors have the same length, every node index is valid, every
    unitig on the path has at least [k - 1] characters and every unitig taken
    in reverse is a nucleotide string, [spell] returns. *)
Theorem spell_guards g path_nodes forwards :
  (length path_nodes ≠ length forwards ∨ path_nodes = [] →
   spell g path_nodes forwards = Exit EXIT_FAILURE) ∧
  (fits g → path_nodes ≠ [] → length path_nodes = length forwards →
   Forall (step_defined g) (zip path_nodes forwards) →
   returns (spell g path_nodes forwards)).
Proof.
  split.
  - intros H. unfold spell.
    destruct (decide (length path_nodes ≠ length forwards)); [done |].
    destruct (decide (path_nodes = [])); [done |]. by destruct H.
  - intros Hfits Hne Hlen Hall.
    destruct (spelling_defined g (zip path_nodes forwards)) as [s Hs]; [| done |].
    { destruct path_nodes, forwards; done. }
    exists s. by apply spell_ok.
Qed.

(** On a unitig shorter than k - 1 a forward step throws in [substr], and a
    reversed step appends the whole reverse complement, because the length
    [len - (k - 1)] wraps. *)
Lemma spell_on_short_unitig :
  spell short_graph [0; 1]%N [true; true] = Throw ∧
  spell short_graph [0; 1]%N [true; false] = Ret (str "ACGTAGT").
Proof. split; reflexivity. Qed.

Lemma spell_guards_witness :
  spell chain_graph [] [] = Exit EXIT_FAILURE ∧
  spell chain_graph [0%N] [] = Exit EXIT_FAILURE ∧
  returns (spell chain_graph [0; 1]%N [true; false]).
Proof.
  split_and!.
  - apply (proj1 (spell_guards chain_graph [] [])). by right.
  - apply (proj1 (spell_guards chain_graph [0%N] [])). by left.
  - apply (proj2 (spell_guards chain_graph [0; 1]%N [true; false]));
      [apply fits_chain_graph | done | done | apply step_defined_chain_graph].
Defined.

(** ** C2: the counts of a path *)

Lemma read_backward_ok ab : ∀ n counts,
  n ≤ length ab → read_backward ab n counts = Ret (counts ++ reverse (take n ab)).
Proof.
  induction n as [| k IH]; intros counts Hn.
  - rewrite take_0. change (reverse []) with (@nil N). by rewrite (right_id_L [] (++)).
  - destruct (lookup_lt_is_Some_2 ab k) as [x Hx]; [lia |].
    cbn [read_backward]. unfold vec_index. rewrite Hx. simpl.
    rewrite IH by lia.
    rewrite (take_S_r _ _ _ Hx), reverse_app, <- (assoc_L (++)). done.
Qed.

Lemma last_abundance_index_ok (ab : list N) :
  (size ab ≤ 2 ^ 31)%Z → Z.to_nat (last_abundance_index ab + 1) = length ab.
Proof.
  intros H. unfold last_abundance_index. destruct ab as [| x ab]; [done |].
  unfold size in *. rewrite to_size_t_id, to_int_id; simpl length in *; lia.
Qed.

(** What the machine can hold in the backward loop of [get_counts], whose
    index is an [int]. *)
Lemma read_backward_all ab counts :
  (size ab ≤ 2 ^ 31)%Z →
  read_backward ab (Z.to_nat (last_abundance_index ab + 1)) counts
  = Ret (counts ++ reverse ab).
Proof.
  intros H. rewrite last_abundance_index_ok, read_backward_ok by done.
  by rewrite firstn_all.
Qed.

Lemma get_counts_loop_ok g path_nodes forwards : ∀ steps i counts,
  steps_at path_nodes forwards i steps →
  Forall (λ step, ∃ node, nodes g !! N.to_nat step.1 = Some node ∧
                          (step.2 = false → (size (abundances node) ≤ 2 ^ 31)%Z)) steps →
  get_counts_loop g path_nodes forwards i (length steps) counts
  = Ret (counts ++ counts_of g steps).
Proof.
  induction steps as [| [v f] steps IH]; intros i counts Hat Hall.
  - unfold counts_of. simpl. by rewrite (right_id_L [] (++)).
  - apply Forall_cons in Hall as [(node & Hnode & Hsize) Hall]. simpl in Hnode, Hsize.
    destruct (steps_at_head _ _ _ _ _ _ Hat) as [Hf Hv].
    cbn [length get_counts_loop]. rewrite Hf, Hv. simpl.
    rewrite (vec_at_lookup _ _ _ Hnode). simpl.
    assert ((if f then Ret (counts ++ abundances node)
             else read_backward (abundances node)
                    (Z.to_nat (last_abundance_index (abundances node) + 1)) counts)
            = Ret (counts ++ oriented_abundances g (v, f))) as ->.
    { unfold oriented_abundances. simpl. rewrite Hnode.
      destruct f; [done |]. by apply read_backward_all, Hsize. }
    simpl. rewrite IH; [| by eapply steps_at_tail | done].
    unfold counts_of. simpl. by rewrite (assoc_L (++)).
Qed.









(** ** C5: check_path_consistency *)

Section check_path_consistency_loops.

Context (g : DBG) (path_nodes : list node_idx_t) (forwards : list bool).
Hypothesis same_length : length path_nodes = length forwards.
Hypothesis valid_indices : Forall (λ v, is_Some (nodes g !! N.to_nat v)) path_nodes.

Lemma find_consistent_arc_ok i f w :
  forwards !! i = Some f → path_nodes !! (i + 1) = Some w →
  ∀ l found,
    find_consistent_arc path_nodes forwards i l found
    = Ret (found || bool_decide (Exists (λ a, forward a = f ∧ successor a = w) l)).
Proof.
  intros Hf Hw. induction l as [| a l IH]; intros found.
  - cbn [find_consistent_arc]. rewrite bool_decide_false by (intros H; inversion H).
    by rewrite orb_false_r.
  - cbn [find_consistent_arc]. unfold vec_index. rewrite Hf, Hw. simpl.
    destruct (decide (forward a = f)) as [Hfa | Hfa].
    + rewrite (bool_decide_true _ Hfa), IH. f_equal.
      destruct (decide (successor a = w)) as [Hsa | Hsa].
      * rewrite (bool_decide_true _ Hsa).
        rewrite (bool_decide_true (Exists _ (a :: l))) by (by left).
        by rewrite orb_true_r.
      * rewrite (bool_decide_false _ Hsa). f_equal.
        apply bool_decide_ext. rewrite Exists_cons. tauto.
    + rewrite (bool_decide_false _ Hfa), IH. do 2 f_equal.
      apply bool_decide_ext. rewrite Exists_cons. tauto.
Qed.

Lemma has_arc_to_Exists v node f w :
  nodes g !! N.to_nat v = Some node →
  Exists (λ a, forward a = f ∧ successor a = w) (arcs node) ↔ has_arc_to g v f w.
Proof.
  intros Hv. rewrite Exists_exists. unfold has_arc_to. split.
  - intros (a & Ha & Hf & Hs). by exists node, a.
  - intros (node' & a & Hv' & Ha & Hf & Hs). exists a. by simplify_eq.
Qed.

Lemma check_path_consistency_loop_ok :
  ∀ count i, i + count < length path_nodes →
    ∃ b, check_path_consistency_loop g path_nodes forwards i count = Ret b ∧
         (b = true ↔ ∀ j v f w, i ≤ j < i + count →
                       path_nodes !! j = Some v → forwards !! j = Some f →
                       path_nodes !! (j + 1) = Some w → has_arc_to g v f w).
Proof.
  induction count as [| count IH]; intros i Hi.
  - exists true. split; [done |]. split; [lia | done].
  - destruct (lookup_lt_is_Some_2 path_nodes i) as [v Hv]; [lia |].
    destruct (lookup_lt_is_Some_2 forwards i) as [f Hf]; [lia |].
    destruct (lookup_lt_is_Some_2 path_nodes (i + 1)) as [w Hw]; [lia |].
    destruct (proj1 (Forall_lookup _ _) valid_indices _ _ Hv) as [node Hnode].
    cbn [check_path_consistency_loop]. unfold vec_index. rewrite Hv. simpl.
    rewrite (vec_at_lookup _ _ _ Hnode). simpl.
    rewrite (find_consistent_arc_ok _ f w Hf Hw). simpl.
    case_bool_decide as Harc; rewrite (has_arc_to_Exists v node f w Hnode) in Harc.
    + destruct (IH (S i)) as (b & -> & Hb); [lia |].
      exists b. split; [done |]. rewrite Hb. split.
      * intros H j v' f' w' Hj Hv' Hf' Hw'.
        destruct (decide (j = i)) as [-> | Hne]; [by simplify_eq |].
        eapply H; [| done..]. lia.
      * intros H j v' f' w' Hj. apply H. lia.
    + exists false. split; [done |]. split; [done |].
      intros H. destruct Harc. eapply (H i); [lia | done..].
Qed.

End check_path_consistency_loops.

(** C5, as stated, fails: node 0 has the single arc (forward, 1, reversed), so
    no arc of node 0 enters node 1 forward, yet the check accepts the path
    (0, forward), (1, forward). *)
Lemma check_path_consistency_ignores_to_forward :
  check_path_consistency chain_graph [0; 1]%N [true; true] = Ret true ∧
  ¬ has_arc chain_graph 0 true 1 true.
Proof.
  split; [reflexivity |].
  intros (node & a & Hnode & Ha & Hf & Hs & Ht). injection Hnode as <-.
  simpl in Ha. apply list_elem_of_singleton in Ha as ->. done.
Qed.

(** C5, amended: for a non-empty path given as equal-length vectors over valid
    node indices, [check_path_consistency] returns, and returns true exactly
    when for every consecutive pair of steps (v, f_v), (w, f_w) node v has an
    outgoing arc with forward = f_v and successor = w; the arc's to_forward is
    not compared with f_w. *)
Theorem check_path_consistency_arcs g path_nodes forwards :
  path_nodes ≠ [] →
  (size path_nodes < 2 ^ 64)%Z →
  length path_nodes = length forwards →
  Forall (λ v, is_Some (nodes g !! N.to_nat v)) path_nodes →
  ∃ b, check_path_consistency g path_nodes forwards = Ret b ∧
       (b = true ↔ ∀ i v f w, path_nodes !! i = Some v → forwards !! i = Some f →
                     path_nodes !! (i + 1) = Some w → has_arc_to g v f w).
Proof.
  intros Hne Hsize Hlen Hvalid. unfold check_path_consistency.
  destruct (decide (length path_nodes ≠ length forwards)); [done |].
  assert (0 < length path_nodes) by (destruct path_nodes; [done | simpl; lia]).
  unfold size in *. rewrite to_size_t_id by lia.
  destruct (check_path_consistency_loop_ok g path_nodes forwards Hlen Hvalid
              (Z.to_nat (Z.of_nat (length path_nodes) - 1)) 0) as (b & Hb & Hiff); [lia |].
  exists b. split; [done |]. rewrite Hiff. split.
  - intros Hall i v f w Hv Hf Hw. eapply Hall; [| done..].
    apply lookup_lt_Some in Hw. lia.
  - intros Hall j v f w _. apply Hall.
Qed.

Lemma check_path_consistency_arcs_witness :
  ∃ b, check_path_consistency chain_graph [0; 1]%N [true; false] = Ret b ∧
       (b = true ↔ ∀ i v f w, [0; 1]%N !! i = Some v → [true; false] !! i = Some f →
                     [0; 1]%N !! (i + 1) = Some w → has_arc_to chain_graph v f w).
Proof.
  apply (check_path_consistency_arcs chain_graph [0; 1]%N [true; false]).
  - done.
  - by vm_compute.
  - done.
  - repeat constructor; by eexists.
Defined.

(** ** C9: get_nodes_from *)

Lemma get_nodes_from_loop_ok mask : ∀ l forwards to_nodes to_forwards,
  ∃ visited st,
    get_nodes_from_loop l mask forwards to_nodes to_forwards
    = ((forwards ++ (forward <$> visited), to_nodes ++ (successor <$> visited),
        to_forwards ++ (to_forward <$> visited)), st) ∧
    (st = Ret () → visited = unmasked mask l) ∧
    (Forall (λ a, is_Some (mask !! N.to_nat (successor a))) l → st = Ret ()).
Proof.
  induction l as [| a l IH]; intros forwards to_nodes to_forwards.
  - exists [], (Ret ()). simpl. by rewrite !(right_id_L [] (++)).
  - cbn [get_nodes_from_loop]. unfold unmasked.
    destruct (mask !! N.to_nat (successor a)) as [[|] |] eqn:Hm.
    + destruct (IH forwards to_nodes to_forwards) as (visited & st & -> & Hret & Hcov).
      exists visited, st. split_and!; [done | |].
      * intros Hst. rewrite filter_cons_False by congruence. by apply Hret.
      * intros Hall. apply Hcov. by apply Forall_cons in Hall as [_ ?].
    + destruct (IH (forwards ++ [forward a]) (to_nodes ++ [successor a])
                  (to_forwards ++ [to_forward a])) as (visited & st & -> & Hret & Hcov).
      exists (a :: visited), st. split_and!.
      * by rewrite <- !(assoc_L (++)).
      * intros Hst. rewrite filter_cons_True by done. f_equal. by apply Hret.
      * intros Hall. apply Hcov. by apply Forall_cons in Hall as [_ ?].
    + exists [], Throw. simpl. rewrite !(right_id_L [] (++)). split_and!; [done.. |].
      intros Hall. apply Forall_cons in Hall as [[? Hsome] _]. congruence.
Qed.

(** C9: whatever the three vectors hold at the call, [get_nodes_from] leaves
    in [to_nodes] and [to_forwards] only the entries of the arcs it visited,
    and in [forwards] the old content followed by their entries: the old
    content of [to_nodes] and [to_forwards] is cleared, that of [forwards] is
    kept. When the call returns, the visited arcs are the unmasked arcs of the
    queried node in order, and it returns when the node exists and the mask
    covers every successor. The three vectors have the same length exactly
    when [forwards] was empty at the call, and then entry i of each describes
    the i-th unmasked arc. *)
Theorem get_nodes_from_vectors g node forwards to_nodes to_forwards mask :
  ∃ visited st,
    get_nodes_from g node forwards to_nodes to_forwards mask
    = ((forwards ++ (forward <$> visited), successor <$> visited,
        to_forward <$> visited), st) ∧
    (st = Ret () → ∃ n, nodes g !! N.to_nat node = Some n ∧
                        visited = unmasked mask (arcs n)) ∧
    (∀ n, nodes g !! N.to_nat node = Some n →
          Forall (λ a, is_Some (mask !! N.to_nat (successor a))) (arcs n) →
          st = Ret ()) ∧
    (length (forwards ++ (forward <$> visited)) = length (successor <$> visited) ∧
     length (successor <$> visited) = length (to_forward <$> visited)
     ↔ forwards = []).
Proof.
  unfold get_nodes_from.
  assert (∀ visited : list arc_t,
            length (forwards ++ (forward <$> visited)) = length (successor <$> visited) ∧
            length (successor <$> visited) = length (to_forward <$> visited)
            ↔ forwards = []) as Hlen.
  { intros visited. rewrite length_app, !length_fmap. split.
    - intros [H _]. apply length_zero_iff_nil. lia.
    - intros ->. simpl. lia. }
  destruct (nodes g !! N.to_nat node) as [n |] eqn:Hn.
  - destruct (get_nodes_from_loop_ok mask (arcs n) forwards [] [])
      as (visited & st & -> & Hret & Hcov).
    exists visited, st. split_and!; [done | | | done].
    + intros Hst. exists n. split; [done |]. by apply Hret.
    + intros n' [= <-]. apply Hcov.
  - exists [], Throw. split_and!.
    + simpl. by rewrite (right_id_L [] (++)).
    + done.
    + intros n' [=].
    + apply Hlen.
Qed.

(** The arc of node 0 is read into cleared [to_nodes] and [to_forwards], and
    behind the entry that [forwards] already holds. *)
Lemma get_nodes_from_example :
  get_nodes_from chain_graph 0 [false] [7%N] [false; false] [false; false]
  = (([false; true], [1%N], [false]), Ret ()).
Proof. reflexivity. Qed.

Lemma get_nodes_from_vectors_witness :
  ∃ visited st,
    get_nodes_from chain_graph 0 [] [7%N] [false] [false; false]
    = (([] ++ (forward <$> visited), successor <$> visited, to_forward <$> visited), st) ∧
    (st = Ret () → ∃ n, nodes chain_graph !! N.to_nat 0 = Some n ∧
                        visited = unmasked [false; false] (arcs n)) ∧
    (∀ n, nodes chain_graph !! N.to_nat 0 = Some n →
          Forall (λ a, is_Some ([false; false] !! N.to_nat (successor a))) (arcs n) →
          st = Ret ()) ∧
    (length ([] ++ (forward <$> visited)) = length (successor <$> visited) ∧
     length (successor <$> visited) = length (to_forward <$> visited)
     ↔ @nil bool = []).
Proof. exact (get_nodes_from_vectors chain_graph 0 [] [7%N] [false] [false; false]). Defined.

(** ** C6: validate *)

(** The loop of [validate] accepts two token streams exactly when one is a
    prefix of the other. *)
Lemma validate_loop_prefix t1 : ∀ t2,
  validate_loop t1 t2 = true ↔ t1 `prefix_of` t2 ∨ t2 `prefix_of` t1.
Proof.
  induction t1 as [| x t1 IH]; intros [| y t2]; simpl.
  - split; [by left | done].
  - split; [left; apply prefix_nil | done].
  - split; [right; apply prefix_nil | done].
  - case_bool_decide as Hxy; simpl.
    + split; [done |]. intros [H | H]; apply prefix_cons_inv_1 in H; congruence.
    + subst y. rewrite IH. split.
      * intros [H | H]; [left | right]; by apply prefix_cons.
      * intros [H | H]; [left | right]; by apply prefix_cons_inv_2 in H.
Qed.

Lemma validate_loop_equal t : validate_loop t t = true.
Proof. apply validate_loop_prefix. by left. Qed.

(** C6: the code at an input file that ends with a comment line. The parser
    skips the line; [validate] writes the graph back, compares the six tokens
    both files have, and returns true although the input has two more. *)
Theorem validate_accepts_longer_input :
  ∃ content fs',
    to_bcalm_file comment_graph = Ret content ∧
    validate comment_graph comment_fs = Ret (true, fs') ∧
    fs' !! fasta_dbg_name comment_graph = Some content ∧
    tokens content = str <$> [">0"; "LN:i:5"; "ab:Z:2"; "2"; "1"; "ACGTA"]%string ∧
    tokens comment_file
    = str <$> [">0"; "LN:i:5"; "ab:Z:2"; "2"; "1"; "ACGTA"; "#"; "end"]%string ∧
    tokens comment_file ≠ tokens content.
Proof.
  eexists _, _. split_and!.
  - reflexivity.
  - reflexivity.
  - by vm_compute.
  - by vm_compute.
  - by vm_compute.
  - by vm_compute.
Qed.

(** ** C4: verification in debug mode *)








(** ** C3: the exit status for a bad k-mer size *)

Lemma atoi_range s v : atoi s = Ret v → (INT_MIN ≤ v ≤ INT_MAX)%Z.
Proof. unfold atoi. case_bool_decide; [by intros [= <-] | done]. Qed.

(** A value that is not positive leaves through [exit(EXIT_FAILURE)]. *)
Lemma parse_cli_k_nonpositive optarg p v :
  atoi optarg = Ret v → (v ≤ 0)%Z → parse_cli_k optarg p = Exit EXIT_FAILURE.
Proof.
  intros Hv Hle. unfold parse_cli_k. rewrite Hv. simpl.
  by rewrite (proj2 (Z.leb_le _ _)).
Qed.

(** A positive even value leaves through [exit(EXIT_SUCCESS)]. *)
Lemma parse_cli_k_even optarg p v :
  atoi optarg = Ret v → (0 < v)%Z → Z.even v = true →
  parse_cli_k optarg p = Exit EXIT_SUCCESS.
Proof.
  intros Hv Hpos Heven. unfold parse_cli_k. rewrite Hv. simpl.
  rewrite (proj2 (Z.leb_gt _ _)) by done.
  apply Zeven_bool_iff, Zeven_ex_iff in Heven as [m ->].
  replace (Z.rem (2 * m) 2) with 0%Z; [done |].
  symmetry. rewrite Z.mul_comm. apply Z.rem_mul. lia.
Qed.

(** A positive odd value is stored and the option loop goes on. *)
Lemma parse_cli_k_odd optarg p v :
  atoi optarg = Ret v → (0 < v)%Z → Z.odd v = true →
  ∃ p', parse_cli_k optarg p = Ret p' ∧ params.kmer_size p' = v.
Proof.
  intros Hv Hpos Hodd. unfold parse_cli_k. rewrite Hv. simpl.
  rewrite (proj2 (Z.leb_gt _ _)) by done.
  apply Zodd_bool_iff, Zodd_ex_iff in Hodd as [m ->].
  replace (Z.rem (2 * m + 1) 2) with 1%Z; [by eexists |].
  symmetry. rewrite Z.rem_mod_nonneg by lia.
  rewrite Z.add_comm, Z.mul_comm, Z.mod_add by lia. done.
Qed.

(** C3: the code at [-k 4] and at [-k 0]. Both values end the process, the
    value 0 with the status EXIT_FAILURE, the even value 4 with the status
    EXIT_SUCCESS, which is 0. *)
Theorem parse_cli_k_even_exit_status :
  parse_cli_k (str "0") default_params = Exit EXIT_FAILURE ∧
  parse_cli_k (str "4") default_params = Exit EXIT_SUCCESS ∧
  EXIT_SUCCESS = 0%Z ∧ EXIT_FAILURE ≠ 0%Z.
Proof. split_and!; done. Qed.

(** ** C8: the abundances of a record of the alternative dialect *)

Lemma truncate_floor m e : (0 ≤ m)%Z → truncate m e = floor m e.
Proof.
  intros Hm. unfold truncate, floor. destruct (0 <=? e)%Z eqn:He; [done |].
  apply Z.leb_gt in He.
  apply Z.quot_div_nonneg; [done |]. apply Z.pow_pos_nonneg; lia.
Qed.

Lemma floor_nonneg m e : (0 ≤ m)%Z → (0 ≤ floor m e)%Z.
Proof.
  intros Hm. unfold floor. destruct (0 <=? e)%Z eqn:He.
  - apply Z.leb_le in He. apply Z.mul_nonneg_nonneg; [done |]. by apply Z.pow_nonneg.
  - apply Z.leb_gt in He. apply Z.div_pos; [done |]. apply Z.pow_pos_nonneg; lia.
Qed.

Lemma double_to_uint32_floor m e :
  (0 ≤ m)%Z → (floor m e < 2 ^ 32)%Z →
  double_to_uint32 (Finite m e) = Ret (Z.to_N (floor m e)).
Proof.
  intros Hm Hlt. unfold double_to_uint32. rewrite truncate_floor by done.
  pose proof (floor_nonneg m e Hm). cbv zeta. by rewrite bool_decide_true by lia.
Qed.

Lemma synthesize_abundances_ok avg x : double_to_uint32 avg = Ret x →
  ∀ n ab, synthesize_abundances n avg ab = Ret (ab ++ replicate n x).
Proof.
  intros Hx. induction n as [| n IH]; intros ab; simpl.
  - by rewrite (right_id_L [] (++)).
  - rewrite Hx. simpl. rewrite IH. by rewrite <- (assoc_L (++)).
Qed.

(** C8, as stated, fails: the average 2^32 is not negative and the sequence
    has 7 >= 3 characters, but the cast to [uint32_t] is undefined and no
    [uint32_t] is the floor 2^32. *)
Lemma alternative_abundances_overflow :
  double_nonneg (Finite 1 32) ∧ (3 ≤ size (str "ACGTACG"))%Z ∧
  floor 1 32 = (2 ^ 32)%Z ∧
  parse_alternative_record 3 (Finite 1 32) [] (str "ACGTACG") = Undefined.
Proof. split_and!; by vm_compute. Qed.

(** C8, amended: for a record of the alternative dialect whose average AVG
    satisfies [0 <= AVG] and [floor(AVG) < 2^32] and whose sequence has
    [len >= k] characters, the node stored has the sequence as its unitig and
    [floor(AVG)] repeated [len - k + 1] times as its abundances; its length
    field is [len] when [len] is an [int]. *)
Theorem alternative_abundances k m e l line :
  (0 ≤ m)%Z → (floor m e < 2 ^ 32)%Z →
  (Z.of_N k ≤ size line ≤ max_size)%Z →
  ∃ node,
    parse_alternative_record k (Finite m e) l line = Ret node ∧
    unitig node = line ∧
    abundances node
    = replicate (Z.to_nat (size line - Z.of_N k + 1)) (Z.to_N (floor m e)) ∧
    arcs node = l ∧
    ((size line < 2 ^ 31)%Z → length_ node = size line).
Proof.
  intros Hm Hlt [Hk Hmax]. unfold max_size in Hmax.
  pose proof (double_to_uint32_floor m e Hm Hlt) as Hcast.
  unfold parse_alternative_record, parse_alternative_abundance.
  rewrite Hcast. simpl. unfold read_sequence. simpl.
  rewrite to_size_t_id by lia.
  rewrite (synthesize_abundances_ok _ _ Hcast). simpl.
  rewrite bool_decide_false.
  - eexists. split; [done |]. simpl. split_and!; [done.. |].
    intros Hint. apply to_int_id. pose proof (size_nonneg line). lia.
  - intros Hne. apply Hne. rewrite to_size_t_id by lia.
    unfold size at 2. rewrite length_replicate. lia.
Qed.

Lemma alternative_abundances_witness :
  ∃ node,
    parse_alternative_record 3 (Finite 5 0) [] (str "ACGTACG") = Ret node ∧
    unitig node = str "ACGTACG" ∧
    abundances node = replicate (Z.to_nat (size (str "ACGTACG") - Z.of_N 3 + 1))
                        (Z.to_N (floor 5 0)) ∧
    arcs node = [] ∧
    ((size (str "ACGTACG") < 2 ^ 31)%Z → length_ node = size (str "ACGTACG")).
Proof.
  apply (alternative_abundances 3 5 0 [] (str "ACGTACG")).
  - done.
  - by vm_compute.
  - by vm_compute.
Defined.

(** The example of the specification: k = 3, AVG = 5.0 and a sequence of 7
    characters give five abundances 5 and the length 7. *)
Lemma alternative_abundances_example :
  ∃ node,
    parse_alternative_record 3 (Finite 5 0) [] (str "ACGTACG") = Ret node ∧
    abundances node = [5; 5; 5; 5; 5]%N ∧ length_ node = 7%Z.
Proof. eexists. split; [reflexivity |]. done. Qed.

(** * Further properties of the code *)

(** ** reverse_complement: errors, length, concatenation *)

Lemma complement_upper c c' : complement c = Some c' → upper_nucleotide c'.
Proof.
  intros H. complement_cases H; injection H as <-; unfold upper_nucleotide;
    vm_compute; set_solver.
Qed.

Lemma revcomp_upper s r : revcomp s = Some r → Forall upper_nucleotide r.
Proof.
  unfold revcomp. destruct (mapM complement s) as [cs |] eqn:H; [| done].
  intros [= <-]. apply Forall_reverse. apply mapM_Some in H.
  induction H as [| c c' s cs Hc _ IH]; constructor; eauto using complement_upper.
Qed.

Lemma revcomp_is_Some s : is_Some (revcomp s) ↔ Forall nucleotide s.
Proof.
  split; [| apply revcomp_nucleotide].
  unfold revcomp. rewrite fmap_is_Some, mapM_is_Some.
  intros H. eapply Forall_impl; [done |]. intros c. apply complement_nucleotide.
Qed.

(** X1: [reverse_complement] returns exactly on the strings over A, C, G, T in
    either case and leaves through [exit(EXIT_FAILURE)] on every other
    string; what it returns has the length of its argument and is in upper
    case. *)
Theorem reverse_complement_returns_iff s :
  (returns (reverse_complement s) ↔ Forall nucleotide s) ∧
  (¬ Forall nucleotide s → reverse_complement s = Exit EXIT_FAILURE) ∧
  (∀ r, reverse_complement s = Ret r → length r = length s ∧ Forall upper_nucleotide r).
Proof.
  rewrite reverse_complement_revcomp. rewrite <- revcomp_is_Some.
  destruct (revcomp s) as [r |] eqn:Hr; split_and!.
  - split; [by eexists | intros _; by exists r].
  - intros H. destruct H. by eexists.
  - intros r' [= <-]. eauto using revcomp_length, revcomp_upper.
  - split; [by intros [? ?] | by intros [? ?]].
  - done.
  - done.
Qed.

Lemma revcomp_app a b :
  revcomp (a ++ b) = rb ← revcomp b; ra ← revcomp a; Some (rb ++ ra).
Proof.
  unfold revcomp.
  destruct (mapM complement a) as [ca |] eqn:Ha, (mapM complement b) as [cb |] eqn:Hb; simpl.
  - assert (mapM complement (a ++ b) = Some (ca ++ cb)) as ->.
    { apply mapM_Some. apply Forall2_app; by apply mapM_Some. }
    simpl. by rewrite reverse_app.
  - assert (mapM complement (a ++ b) = None) as ->; [| done].
    apply mapM_None. apply mapM_None in Hb.
    apply Exists_app. by right.
  - assert (mapM complement (a ++ b) = None) as ->; [| done].
    apply mapM_None. apply mapM_None in Ha.
    apply Exists_app. by left.
  - assert (mapM complement (a ++ b) = None) as ->; [| done].
    apply mapM_None. apply mapM_None in Ha.
    apply Exists_app. by left.
Qed.

(** X2: the reverse complement of a concatenation is the concatenation of
    the reverse complements in the opposite order, and [reverse_complement]
    leaves through [exit] on [a ++ b] exactly when it does on [a] or on [b]. *)
Theorem reverse_complement_app a b :
  reverse_complement (a ++ b)
  = rb ← reverse_complement b; ra ← reverse_complement a; Ret (rb ++ ra).
Proof.
  rewrite !reverse_complement_revcomp, revcomp_app.
  by destruct (revcomp b), (revcomp a).
Qed.

(** ** overlaps and verify_overlaps *)

Section overlap_ends.

Context (g : DBG) (node : node_t).
Hypothesis k_range : (1 ≤ Z.of_N (kmer_size g) < 2 ^ 32)%Z.
Hypothesis unitig_range : (Z.of_N (kmer_size g) - 1 ≤ size (unitig node) ≤ max_size)%Z.

Lemma last_characters :
  substr_from (unitig node) (to_size_t (size (unitig node) - Z.of_N (kmer_size g) + 1))
  = Ret (drop (length (unitig node) - Z.to_nat (Z.of_N (kmer_size g) - 1)) (unitig node)).
Proof.
  unfold max_size, size in *. rewrite to_size_t_id by lia. unfold substr_from, size.
  rewrite (proj2 (Z.ltb_ge _ _)) by lia. do 2 f_equal. lia.
Qed.

Lemma first_characters :
  substr (unitig node) 0 (kmer_size_minus_1 g)
  = Ret (take (Z.to_nat (Z.of_N (kmer_size g) - 1)) (unitig node)).
Proof.
  rewrite kmer_size_minus_1_id by lia. unfold substr, size in *.
  rewrite (proj2 (Z.ltb_ge _ _)) by lia. simpl. rewrite drop_0. do 2 f_equal. lia.
Qed.

Lemma overlaps_suffix_end (f : bool) :
  (if f then
     substr_from (unitig node) (to_size_t (size (unitig node) - Z.of_N (kmer_size g) + 1))
   else substr (unitig node) 0 (kmer_size_minus_1 g) ≫= λ s, reverse_complement s)
  = of_option (overlap_suffix g node f).
Proof.
  unfold overlap_suffix. destruct f.
  - by rewrite last_characters.
  - rewrite first_characters. simpl. by rewrite reverse_complement_revcomp.
Qed.

Lemma overlaps_prefix_end (f : bool) :
  (if f then substr (unitig node) 0 (kmer_size_minus_1 g)
   else substr_from (unitig node)
          (to_size_t (size (unitig node) - Z.of_N (kmer_size g) + 1))
        ≫= λ s, reverse_complement s)
  = of_option (overlap_prefix g node f).
Proof.
  unfold overlap_prefix. destruct f.
  - by rewrite first_characters.
  - rewrite last_characters. simpl. by rewrite reverse_complement_revcomp.
Qed.

End overlap_ends.

Lemma overlaps_eq g node succ a :
  (1 ≤ Z.of_N (kmer_size g) < 2 ^ 32)%Z →
  (Z.of_N (kmer_size g) - 1 ≤ size (unitig node) ≤ max_size)%Z →
  nodes g !! N.to_nat (successor a) = Some succ →
  (Z.of_N (kmer_size g) - 1 ≤ size (unitig succ) ≤ max_size)%Z →
  overlaps g node a
  = x ← of_option (overlap_suffix g node (forward a));
    y ← of_option (overlap_prefix g succ (to_forward a));
    Ret (bool_decide (x = y)).
Proof.
  intros Hk Hnode Hsucc Hsize. unfold overlaps.
  rewrite (overlaps_suffix_end g node Hk Hnode (forward a)).
  destruct (of_option (overlap_suffix g node (forward a))) as [x | | |]; try done. simpl.
  rewrite <- (overlaps_prefix_end g succ Hk Hsize (to_forward a)).
  unfold vec_index. rewrite Hsucc. by destruct (to_forward a).
Qed.

(** X3: for an arc to an existing node, with [1 <= k] and both unitigs of at
    least [k - 1] characters, [overlaps] compares the last [k - 1] characters
    of the source unitig (the reverse complement of its first [k - 1] when the
    arc leaves the reverse strand) with the first [k - 1] characters of the
    target unitig (the reverse complement of its last [k - 1] when the arc
    enters reversed); it leaves through [exit(EXIT_FAILURE)] exactly when one
    of the ends it has to reverse holds a character that is no nucleotide. *)
Theorem overlaps_ends g node succ a :
  (1 ≤ Z.of_N (kmer_size g) < 2 ^ 32)%Z →
  (Z.of_N (kmer_size g) - 1 ≤ size (unitig node) ≤ max_size)%Z →
  nodes g !! N.to_nat (successor a) = Some succ →
  (Z.of_N (kmer_size g) - 1 ≤ size (unitig succ) ≤ max_size)%Z →
  match overlap_suffix g node (forward a), overlap_prefix g succ (to_forward a) with
  | Some x, Some y => overlaps g node a = Ret (bool_decide (x = y))
  | _, _ => overlaps g node a = Exit EXIT_FAILURE
  end.
Proof.
  intros Hk Hnode Hsucc Hsize. rewrite (overlaps_eq g node succ a) by done.
  by destruct (overlap_suffix _ _ _), (overlap_prefix _ _ _).
Qed.

Lemma overlaps_ends_witness :
  overlaps chain_graph (example_node "ACGTA" [2; 2; 1]%N [mk_arc true 1 false])
    (mk_arc true 1 false)
  = Ret (bool_decide (str "TA" = str "TA")).
Proof.
  apply (overlaps_ends chain_graph
           (example_node "ACGTA" [2; 2; 1]%N [mk_arc true 1 false])
           (example_node "GGTA" [1; 3]%N [mk_arc true 0 false])
           (mk_arc true 1 false)).
  - by vm_compute.
  - by vm_compute.
  - reflexivity.
  - by vm_compute.
Defined.

Lemma verify_overlaps_arcs_ok g node :
  (1 ≤ Z.of_N (kmer_size g) < 2 ^ 32)%Z →
  Forall (λ n, (Z.of_N (kmer_size g) - 1 ≤ size (unitig n) ≤ max_size)%Z ∧
               Forall nucleotide (unitig n)) (nodes g) →
  (Z.of_N (kmer_size g) - 1 ≤ size (unitig node) ≤ max_size)%Z →
  Forall nucleotide (unitig node) →
  ∀ l, Forall (λ a, is_Some (nodes g !! N.to_nat (successor a))) l →
    ∃ b, verify_overlaps_arcs g node l = Ret b ∧
         (b = true ↔ Forall (arc_overlaps g node) l).
Proof.
  intros Hk Hall Hsize Hnuc. induction l as [| a l IH]; intros Hvalid.
  - exists true. by split.
  - apply Forall_cons in Hvalid as [[succ Hsucc] Hvalid].
    destruct (IH Hvalid) as (b & Hb & Hiff).
    destruct (proj1 (Forall_lookup _ _) Hall _ _ Hsucc) as [Hsuccsize Hsuccnuc].
    cbn [verify_overlaps_arcs].
    rewrite (overlaps_eq g node succ a) by done.
    assert (is_Some (overlap_suffix g node (forward a))) as [x Hx].
    { unfold overlap_suffix. destruct (forward a); [done |].
      apply revcomp_nucleotide. by apply Forall_take. }
    assert (is_Some (overlap_prefix g succ (to_forward a))) as [y Hy].
    { unfold overlap_prefix. destruct (to_forward a); [done |].
      apply revcomp_nucleotide. by apply Forall_drop. }
    rewrite Hx, Hy. simpl.
    assert (arc_overlaps g node a ↔ x = y) as Harc.
    { unfold arc_overlaps. split.
      - intros (succ' & z & Hs & Hz1 & Hz2). by simplify_eq.
      - intros ->. by exists succ, y. }
    case_bool_decide as Hxy.
    + exists b. split; [done |]. rewrite Hiff, Forall_cons. tauto.
    + exists false. split; [done |]. rewrite Forall_cons. split; [done | tauto].
Qed.

Lemma verify_overlaps_nodes_ok g :
  (1 ≤ Z.of_N (kmer_size g) < 2 ^ 32)%Z →
  Forall (λ n, (Z.of_N (kmer_size g) - 1 ≤ size (unitig n) ≤ max_size)%Z ∧
               Forall nucleotide (unitig n)) (nodes g) →
  ∀ l, Forall (λ n, (Z.of_N (kmer_size g) - 1 ≤ size (unitig n) ≤ max_size)%Z ∧
                    Forall nucleotide (unitig n) ∧
                    Forall (λ a, is_Some (nodes g !! N.to_nat (successor a))) (arcs n)) l →
    ∃ b, verify_overlaps_nodes g l = Ret b ∧
         (b = true ↔ Forall (λ n, Forall (arc_overlaps g n) (arcs n)) l).
Proof.
  intros Hk Hall. induction l as [| node l IH]; intros Hl.
  - exists true. by split.
  - apply Forall_cons in Hl as [(Hsize & Hnuc & Hvalid) Hl].
    destruct (IH Hl) as (b & Hb & Hiff).
    destruct (verify_overlaps_arcs_ok g node Hk Hall Hsize Hnuc (arcs node) Hvalid)
      as (b' & Hb' & Hiff').
    cbn [verify_overlaps_nodes]. rewrite Hb'. simpl. destruct b'.
    + exists b. split; [done |]. rewrite Hiff, Forall_cons. tauto.
    + exists false. split; [done |]. rewrite Forall_cons.
      split; [done |]. intros [H _]. apply Hiff' in H. done.
Qed.

(** X4: on a graph whose arcs lead to existing nodes and whose unitigs are
    nucleotide strings of at least [k - 1] characters ([k >= 1]),
    [verify_overlaps] returns, and it returns true exactly when every arc of
    every node has equal ends. *)
Theorem verify_overlaps_iff g :
  fits g → overlap_ready g →
  ∃ b, verify_overlaps g = Ret b ∧
       (b = true ↔ ∀ node a, node ∈ nodes g → a ∈ arcs node → arc_overlaps g node a).
Proof.
  intros [Hk Hfit] [Hk1 Hready].
  assert (Forall (λ n, (Z.of_N (kmer_size g) - 1 ≤ size (unitig n) ≤ max_size)%Z ∧
                       Forall nucleotide (unitig n) ∧
                       Forall (λ a, is_Some (nodes g !! N.to_nat (successor a))) (arcs n))
                 (nodes g)) as Hall.
  { rewrite Forall_forall in Hfit, Hready. apply Forall_forall. intros n Hn.
    destruct (Hready n Hn) as (? & ? & ?). specialize (Hfit n Hn). simpl in Hfit. done. }
  destruct (verify_overlaps_nodes_ok g (conj Hk1 Hk)) with (l := nodes g)
    as (b & Hb & Hiff); [| done |].
  { eapply Forall_impl; [exact Hall |]. by intros n (? & ? & ?). }
  exists b. split; [done |]. rewrite Hiff, Forall_forall.
  split.
  - intros H node a Hnode Ha. specialize (H node Hnode).
    rewrite Forall_forall in H. by apply H.
  - intros H node Hnode. apply Forall_forall. intros a Ha. by apply H.
Qed.

Lemma fits_s1_graph : fits s1_graph.
Proof. split; [done |]. repeat constructor; by vm_compute. Qed.

Lemma overlap_ready_s1_graph : overlap_ready s1_graph.
Proof.
  split; [done |]. repeat constructor; try (by vm_compute);
    try (refine (bool_decide_unpack _ _); by vm_compute); by eexists.
Qed.

Lemma verify_overlaps_iff_witness :
  ∃ b, verify_overlaps s1_graph = Ret b ∧
       (b = true ↔ ∀ node a, node ∈ nodes s1_graph → a ∈ arcs node →
                     arc_overlaps s1_graph node a).
Proof. exact (verify_overlaps_iff s1_graph fits_s1_graph overlap_ready_s1_graph). Defined.

(** ** spell across an overlapping arc *)

Lemma overlap_suffix_oriented g node f o :
  oriented_unitig node f = Some o →
  overlap_suffix g node f
  = Some (drop (length o - Z.to_nat (Z.of_N (kmer_size g) - 1)) o).
Proof.
  unfold oriented_unitig, overlap_suffix. destruct f; [by intros [= <-] |].
  unfold revcomp. destruct (mapM complement (unitig node)) as [cs |] eqn:Hcs; [| done].
  intros [= <-]. rewrite (mapM_complement_take _ _ _ Hcs). simpl.
  by rewrite reverse_take, length_reverse.
Qed.

Lemma mapM_complement_drop n s cs :
  mapM complement s = Some cs → mapM complement (drop n s) = Some (drop n cs).
Proof. rewrite !mapM_Some. apply Forall2_drop. Qed.

Lemma overlap_prefix_oriented g node f o :
  (Z.of_N (kmer_size g) - 1 ≤ size (unitig node))%Z →
  oriented_unitig node f = Some o →
  overlap_prefix g node f = Some (take (Z.to_nat (Z.of_N (kmer_size g) - 1)) o).
Proof.
  intros Hsize. unfold oriented_unitig, overlap_prefix. destruct f; [by intros [= <-] |].
  unfold revcomp. destruct (mapM complement (unitig node)) as [cs |] eqn:Hcs; [| done].
  intros [= <-]. rewrite (mapM_complement_drop _ _ _ Hcs). simpl.
  rewrite reverse_drop. do 2 f_equal.
  apply mapM_Some, Forall2_length in Hcs. unfold size in Hsize. lia.
Qed.

(** X5: let [1 <= k], let an arc lead from node [u] to node [v], both with
    unitigs of at least [k - 1] characters, and let both oriented unitigs
    exist (a unitig the arc takes in reverse is a nucleotide string). When
    [overlaps] accepts the arc, [spell] on the two steps the arc joins returns
    the oriented unitig of [u] followed by the oriented unitig of [v] without
    its first [k - 1] characters, and this string ends with the whole oriented
    unitig of [v]: the two unitigs are glued on the [k - 1] characters they
    share. *)
Theorem spell_overlapping_arc g u nu nv a ou ov :
  fits g → (1 ≤ Z.of_N (kmer_size g))%Z →
  nodes g !! N.to_nat u = Some nu →
  nodes g !! N.to_nat (successor a) = Some nv →
  (Z.of_N (kmer_size g) - 1 ≤ size (unitig nu))%Z →
  (Z.of_N (kmer_size g) - 1 ≤ size (unitig nv))%Z →
  oriented_unitig nu (forward a) = Some ou →
  oriented_unitig nv (to_forward a) = Some ov →
  overlaps g nu a = Ret true →
  let k1 := Z.to_nat (Z.of_N (kmer_size g) - 1) in
  spell g [u; successor a] [forward a; to_forward a] = Ret (ou ++ drop k1 ov) ∧
  ou ++ drop k1 ov = take (length ou - k1) ou ++ ov.
Proof.
  intros Hfits Hk Hu Hv Hsu Hsv Hou Hov Hover k1.
  pose proof (fits_unitig _ _ _ Hfits Hu) as Hmu.
  pose proof (fits_unitig _ _ _ Hfits Hv) as Hmv.
  destruct Hfits as [Hk32 Hfits'].
  split.
  - apply spell_ok; [by split | done |]. simpl. rewrite Hu. simpl. rewrite Hou. simpl.
    unfold spelling_step. simpl. rewrite Hv. simpl. rewrite Hov. simpl.
    unfold last_chars. rewrite (oriented_unitig_size _ _ _ Hov).
    pose proof (size_nonneg (unitig nv)).
    rewrite bool_decide_true by lia. simpl. rewrite (right_id_L [] (++)).
    do 3 f_equal. unfold k1. lia.
  - rewrite (overlaps_eq g nu nv a) in Hover by (done || lia).
    rewrite (overlap_suffix_oriented g nu _ ou Hou) in Hover.
    rewrite (overlap_prefix_oriented g nv _ ov Hsv Hov) in Hover. simpl in Hover.
    injection Hover as Hover. apply bool_decide_eq_true in Hover. fold k1 in Hover.
    rewrite <- (take_drop k1 ov) at 2. rewrite <- Hover.
    by rewrite (assoc_L (++)), take_drop.
Qed.

Lemma spell_overlapping_arc_witness :
  spell chain_graph [0; 1]%N [true; false] = Ret (str "ACGTA" ++ drop 2 (str "TACC")) ∧
  str "ACGTA" ++ drop 2 (str "TACC") = take (5 - 2) (str "ACGTA") ++ str "TACC".
Proof.
  apply (spell_overlapping_arc chain_graph 0
           (example_node "ACGTA" [2; 2; 1]%N [mk_arc true 1 false])
           (example_node "GGTA" [1; 3]%N [mk_arc true 0 false])
           (mk_arc true 1 false) (str "ACGTA") (str "TACC")).
  - apply fits_chain_graph.
  - by vm_compute.
  - reflexivity.
  - reflexivity.
  - by vm_compute.
  - by vm_compute.
  - reflexivity.
  - reflexivity.
  - reflexivity.
Defined.

(** ** get_counts on the flipped path *)

Lemma get_counts_appends g path_nodes forwards counts :
  length path_nodes = length forwards →
  Forall (λ step, ∃ node, nodes g !! N.to_nat step.1 = Some node ∧
                          (step.2 = false → (size (abundances node) ≤ 2 ^ 31)%Z))
         (zip path_nodes forwards) →
  get_counts g path_nodes forwards counts
  = Ret (counts ++ counts_of g (zip path_nodes forwards)).
Proof.
  intros Hlen Hall. unfold get_counts.
  replace (length path_nodes) with (length (zip path_nodes forwards))
    by (rewrite length_zip_with; lia).
  apply get_counts_loop_ok; [| done].
  rewrite <- (drop_0 (zip path_nodes forwards)). apply steps_at_zip.
Qed.

Lemma zip_snoc {A B} (l : list A) (k : list B) x y :
  length l = length k → zip (l ++ [x]) (k ++ [y]) = zip l k ++ [(x, y)].
Proof. intros H. by rewrite zip_with_app. Qed.

Lemma zip_reverse {A B} (l : list A) : ∀ k : list B,
  length l = length k → zip (reverse l) (reverse k) = reverse (zip l k).
Proof.
  induction l as [| x l IH]; intros [| y k] Hlen; try done.
  simpl in Hlen. simpl. rewrite !reverse_cons.
  rewrite zip_snoc by (rewrite !length_reverse; lia).
  rewrite IH by lia. done.
Qed.

Lemma oriented_abundances_flip g v f :
  oriented_abundances g (v, negb f) = reverse (oriented_abundances g (v, f)).
Proof.
  unfold oriented_abundances. simpl. destruct (nodes g !! N.to_nat v); [| done].
  destruct f; simpl; [done | by rewrite reverse_involutive].
Qed.

Lemma counts_of_app g p q : counts_of g (p ++ q) = counts_of g p ++ counts_of g q.
Proof. unfold counts_of. by rewrite map_app, concat_app. Qed.

Lemma counts_of_flip g (path_nodes : list node_idx_t) : ∀ forwards : list bool,
  length path_nodes = length forwards →
  counts_of g (zip (reverse path_nodes) (reverse (negb <$> forwards)))
  = reverse (counts_of g (zip path_nodes forwards)).
Proof.
  intros forwards Hlen. rewrite zip_reverse by (by rewrite length_fmap).
  revert forwards Hlen.
  induction path_nodes as [| v path_nodes IH]; intros [| f forwards] Hlen; try done.
  simpl. rewrite reverse_cons, counts_of_app, IH by (simpl in Hlen; lia).
  unfold counts_of at 2 3. simpl. rewrite (right_id_L [] (++)), reverse_app.
  by rewrite oriented_abundances_flip.
Qed.

(** X6: walking a path backwards with every orientation flipped reverses its
    counts: when [get_counts] on an empty vector returns [c] for a path,
    it returns the reverse of [c] for the reversed path with negated flags
    (each abundance vector having at most 2^31 entries, the range of the
    [int] index of the backward loop). *)
Theorem get_counts_flip g path_nodes forwards c :
  length path_nodes = length forwards →
  Forall (λ v, ∃ node, nodes g !! N.to_nat v = Some node ∧
                       (size (abundances node) ≤ 2 ^ 31)%Z) path_nodes →
  get_counts g path_nodes forwards [] = Ret c →
  get_counts g (reverse path_nodes) (reverse (negb <$> forwards)) [] = Ret (reverse c).
Proof.
  intros Hlen Hall.
  assert (∀ fw : list bool, length path_nodes = length fw →
            Forall (λ step, ∃ node, nodes g !! N.to_nat step.1 = Some node ∧
                      (step.2 = false → (size (abundances node) ≤ 2 ^ 31)%Z))
                   (zip path_nodes fw)) as Hzip.
  { intros fw Hfw. apply Forall_forall. intros [v f] Hin.
    apply elem_of_zip_l in Hin. rewrite Forall_forall in Hall.
    destruct (Hall v Hin) as (node & ? & ?). by exists node. }
  rewrite (get_counts_appends g path_nodes forwards []) by auto.
  intros [= <-]. simpl.
  rewrite get_counts_appends.
  - simpl. by rewrite counts_of_flip.
  - by rewrite !length_reverse, length_fmap.
  - rewrite zip_reverse by (by rewrite length_fmap). apply Forall_reverse.
    apply Hzip. by rewrite length_fmap.
Qed.

Lemma get_counts_flip_witness :
  get_counts chain_graph (reverse [0; 1]%N) (reverse (negb <$> [true; false])) []
  = Ret (reverse [2; 2; 1; 3; 1]%N).
Proof.
  apply (get_counts_flip chain_graph [0; 1]%N [true; false]).
  - done.
  - repeat constructor; eexists; (split; [reflexivity | by vm_compute]).
  - reflexivity.
Defined.

(** ** validate: what it accepts, and the files it touches *)

Lemma to_bcalm_loop_returns l : ∀ id file,
  (0 ≤ id)%Z → (id + size l ≤ INT_MAX)%Z → returns (to_bcalm_loop l id file).
Proof.
  induction l as [| node l IH]; intros id file Hid Hmax.
  - by eexists.
  - cbn [to_bcalm_loop]. unfold size in *. simpl length in Hmax.
    rewrite (proj2 (Z.eqb_neq _ _)) by lia. apply IH; lia.
Qed.

Lemma validate_eq g fs content :
  to_bcalm_file g = Ret content →
  validate g fs
  = Ret (validate_loop
           (read_tokens (<[fasta_dbg_name g := content]> fs) (bcalm_file_name g))
           (tokens content),
         <[fasta_dbg_name g := content]> fs).
Proof.
  intros H. unfold validate. rewrite H. simpl. do 3 f_equal.
  unfold read_tokens. by rewrite lookup_insert_eq.
Qed.



(** X8: [validate] proves nothing in two situations. When the input file has
    the name [unitigs.k<k>.ustar.fa] of the file [validate] writes, the input
    is overwritten and the answer is true whatever it held; and when the input
    file is missing or holds no token, the answer is true whatever the graph. *)
Theorem validate_vacuous g fs :
  (size (nodes g) ≤ INT_MAX)%Z →
  bcalm_file_name g = fasta_dbg_name g ∨
  (bcalm_file_name g ≠ fasta_dbg_name g ∧ read_tokens fs (bcalm_file_name g) = []) →
  ∃ fs', validate g fs = Ret (true, fs').
Proof.
  intros Hsize Hcase.
  destruct (to_bcalm_loop_returns (nodes g) 0 []) as [content Hcontent]; [done | lia |].
  eexists. rewrite (validate_eq g fs content Hcontent). do 2 f_equal.
  unfold read_tokens. destruct Hcase as [-> | [Hne Hempty]].
  - rewrite lookup_insert_eq. apply validate_loop_equal.
  - rewrite lookup_insert_ne by done. unfold read_tokens in Hempty. by rewrite Hempty.
Qed.

Lemma validate_vacuous_witness :
  ∃ fs', validate s1_graph comment_fs = Ret (true, fs').
Proof.
  apply (validate_vacuous s1_graph comment_fs).
  - by vm_compute.
  - right. split; [by vm_compute | reflexivity].
Defined.

(** ** The invariant the parser checks before it stores a node *)

Lemma to_size_t_negative z : (- 2 ^ 64 ≤ z < 0)%Z → to_size_t z = (z + 2 ^ 64)%Z.
Proof.
  intros H. unfold to_size_t. symmetry. apply (Z.mod_unique _ _ (-1)); lia.
Qed.

(** X9: a node that [read_sequence] returns, in either dialect, has the
    sequence line as its unitig and exactly [len - k + 1] abundances, so its
    unitig has at least [k - 1] characters: the test on [size_t] values cannot
    be passed by a wrapped negative number, no vector being that long. *)
Theorem read_sequence_aligned k is_standard_format node line node' :
  (Z.of_N k < 2 ^ 32)%Z →
  (size line ≤ max_size)%Z →
  read_sequence k is_standard_format node line = Ret node' →
  (size (abundances node') ≤ max_size)%Z →
  unitig node' = line ∧
  size (abundances node') = (size line - Z.of_N k + 1)%Z ∧
  (Z.of_N k - 1 ≤ size line)%Z ∧
  arcs node' = arcs node.
Proof.
  intros Hk Hline Hread Hab. unfold read_sequence in Hread.
  assert (∃ ab, (if is_standard_format
                 then Ret (mk_node line (length_ node) (abundances node) (arcs node)
                             (average_abundance node) (median_abundance node))
                 else
                   ab ← synthesize_abundances
                          (Z.to_nat (to_size_t (size line - Z.of_N k + 1)))
                          (average_abundance node) (abundances node);
                   Ret (mk_node line (to_int (size line)) ab (arcs node)
                          (average_abundance node) (median_abundance node)))
                = Ret node' ∧ unitig node' = line ∧ arcs node' = arcs node ∧
                abundances node' = ab) as (ab & Hnode & Hu & Ha & Hab').
  { destruct is_standard_format; simpl in Hread.
    - case_bool_decide; [done |]. injection Hread as <-. by eexists.
    - destruct (synthesize_abundances _ _ _) as [ab | | |]; try done. simpl in Hread.
      case_bool_decide; [done |]. injection Hread as <-. by eexists. }
  rewrite Hnode in Hread. simpl in Hread. case_bool_decide as Hcheck; [done |].
  rewrite Hu in Hcheck.
  pose proof (size_nonneg line). unfold max_size in *.
  assert (0 ≤ size line - Z.of_N k + 1)%Z as Hnonneg.
  { destruct (decide (0 ≤ size line - Z.of_N k + 1)%Z) as [| Hneg]; [done |].
    rewrite to_size_t_negative in Hcheck by lia. lia. }
  rewrite to_size_t_id in Hcheck by lia. split_and!; [done | lia | lia | done].
Qed.

Lemma read_sequence_aligned_witness :
  unitig (mk_node (str "ACGTA") 5 [2; 2; 1]%N [] (Finite 0 0) 0) = str "ACGTA" ∧
  size (abundances (mk_node (str "ACGTA") 5 [2; 2; 1]%N [] (Finite 0 0) 0))
  = (size (str "ACGTA") - Z.of_N 3 + 1)%Z ∧
  (Z.of_N 3 - 1 ≤ size (str "ACGTA"))%Z ∧
  arcs (mk_node (str "ACGTA") 5 [2; 2; 1]%N [] (Finite 0 0) 0)
  = arcs (mk_node [] 5 [2; 2; 1]%N [] (Finite 0 0) 0).
Proof.
  apply (read_sequence_aligned 3 true (mk_node [] 5 [2; 2; 1]%N [] (Finite 0 0) 0)
           (str "ACGTA")).
  - by vm_compute.
  - by vm_compute.
  - reflexivity.
  - by vm_compute.
Defined.

(** The standard dialect with one abundance too few: the record is fatal. *)
Lemma read_sequence_wrong_number :
  read_sequence 3 true (mk_node [] 5 [2; 2]%N [] (Finite 0 0) 0) (str "ACGTA")
  = Exit EXIT_FAILURE.
Proof. reflexivity. Qed.

(** ** parse_cli, option -k: what the rest of the program can rely on *)

Lemma rem_2_odd v : Z.rem v 2 ≠ 0%Z → Z.odd v = true.
Proof.
  intros H. rewrite <- Z.negb_even. destruct (Z.even v) eqn:He; [| done].
  apply Zeven_bool_iff, Zeven_ex_iff in He as [m ->]. destruct H.
  rewrite Z.mul_comm. apply Z.rem_mul. lia.
Qed.

(** X10: when the case for -k returns, the k-mer size stored is the number
    [atoi] read, it is positive, odd and an [int], and no other field of
    [params] has changed. *)
Theorem parse_cli_k_returns optarg p p' :
  parse_cli_k optarg p = Ret p' →
  atoi optarg = Ret (params.kmer_size p') ∧
  (0 < params.kmer_size p' ≤ INT_MAX)%Z ∧
  Z.odd (params.kmer_size p') = true ∧
  p' = params.mk (params.input_file_name p) (params.fasta_file_name p)
         (params.counts_file_name p) (params.kmer_size p') (params.debug p)
         (params.batch_mode p) (params.skip_counts p).
Proof.
  unfold parse_cli_k. destruct (atoi optarg) as [v | | |] eqn:Hv; try done. simpl.
  destruct (v <=? 0)%Z eqn:Hle; [done |]. apply Z.leb_gt in Hle.
  destruct (Z.rem v 2 =? 0)%Z eqn:Hrem; [done |]. apply Z.eqb_neq in Hrem.
  intros [= <-]. simpl. apply atoi_range in Hv.
  split_and!; [done | lia | lia | by apply rem_2_odd | done].
Qed.

Lemma parse_cli_k_returns_witness :
  atoi (str "31") = Ret 31%Z ∧ (0 < 31 ≤ INT_MAX)%Z ∧ Z.odd 31 = true ∧
  params.mk [] [] [] 31 false false false = params.mk [] [] [] 31 false false false.
Proof.
  apply (parse_cli_k_returns (str "31") (params.mk [] [] [] 5 false false false)
           (params.mk [] [] [] 31 false false false)).
  reflexivity.
Defined.

(** X11: an argument of -k that, after leading white space, does not start
    with a digit, such as the empty string or a word, is read as 0 and ends
    the process with [EXIT_FAILURE]; so does a sign that no digit follows. *)
Theorem parse_cli_k_not_a_number optarg p :
  match atoi_skip optarg with
  | [] => True
  | c :: rest =>
      (digit_value c = None ∧ c ≠ "-"%char ∧ c ≠ "+"%char) ∨
      ((c = "-"%char ∨ c = "+"%char) ∧
       match rest with [] => True | d :: _ => digit_value d = None end)
  end →
  parse_cli_k optarg p = Exit EXIT_FAILURE.
Proof.
  intros H. apply (parse_cli_k_nonpositive optarg p 0); [| done].
  unfold atoi. destruct (atoi_skip optarg) as [| c rest]; [done |].
  assert (∀ s, match s with [] => True | d :: _ => digit_value d = None end →
               atoi_digits s 0 = 0%Z) as Hdigits.
  { intros [| d s] Hd; [done |]. simpl. by rewrite Hd. }
  destruct H as [(Hc & Hminus & Hplus) | [[-> | ->] Hrest]].
  - assert (atoi_digits (c :: rest) 0 = 0%Z) as Hzero by (by apply Hdigits).
    assert (match c :: rest with
            | "-"%char :: s' => (- atoi_digits s' 0)%Z
            | "+"%char :: s' => atoi_digits s' 0
            | s' => atoi_digits s' 0
            end = 0%Z) as ->; [| done].
    etrans; [| exact Hzero]. clear Hzero Hdigits Hc.
    destruct c as [[] [] [] [] [] [] [] []];
      first [reflexivity | by destruct Hminus | by destruct Hplus].
  - by rewrite (Hdigits rest Hrest).
  - by rewrite (Hdigits rest Hrest).
Qed.

Lemma parse_cli_k_not_a_number_witness :
  parse_cli_k (str " abc") default_params = Exit EXIT_FAILURE.
Proof.
  apply (parse_cli_k_not_a_number (str " abc") default_params).
  left. by vm_compute.
Defined.

(** ** estimate_n_nodes *)

(** X12: for a k-mer size the driver can pass (at most [INT_MAX]) the estimate
    is [1000 / (k + 20)]: it does not depend on the input file, is never more
    than 50 and is 0 from k = 981 on. *)
Theorem estimate_n_nodes_bound g :
  (Z.of_N (kmer_size g) ≤ INT_MAX)%Z →
  ∃ n, estimate_n_nodes g = Ret n ∧
       n = (1000 / (Z.of_N (kmer_size g) + 20))%Z ∧
       (0 ≤ n ≤ 50)%Z ∧
       ((980 < Z.of_N (kmer_size g))%Z → n = 0%Z).
Proof.
  intros Hk. unfold INT_MAX in Hk. unfold estimate_n_nodes, MINIMUM_ENTRY_SIZE.
  rewrite (to_uint32_id (18 + _)) by lia. rewrite to_uint32_id by lia.
  rewrite (proj2 (Z.eqb_neq _ _)) by lia.
  replace (18 + Z.of_N (kmer_size g) + 2)%Z with (Z.of_N (kmer_size g) + 20)%Z by lia.
  assert (0 ≤ 1000 / (Z.of_N (kmer_size g) + 20) ≤ 50)%Z as Hbound.
  { split; [apply Z.div_pos; lia |].
    apply Z.div_le_upper_bound; lia. }
  eexists. split; [reflexivity |]. rewrite to_size_t_id by lia.
  split_and!; [done | lia | lia |].
  intros Hbig. apply Z.div_small. lia.
Qed.

Lemma estimate_n_nodes_bound_witness :
  ∃ n, estimate_n_nodes chain_graph = Ret n ∧
       n = (1000 / (Z.of_N (kmer_size chain_graph) + 20))%Z ∧
       (0 ≤ n ≤ 50)%Z ∧
       ((980 < Z.of_N (kmer_size chain_graph))%Z → n = 0%Z).
Proof. apply (estimate_n_nodes_bound chain_graph). by vm_compute. Defined.

(** At [kmer_size = 2^32 - 20] the sum wraps to 0 and the division is by 0. *)
Lemma estimate_n_nodes_division_by_zero :
  estimate_n_nodes (mk_DBG [] 4294967276 false []) = Undefined.
Proof. reflexivity. Qed.

(** ** get_consistent_nodes_from, and how it extends a consistent path *)

Lemma get_consistent_nodes_from_loop_ok fwd mask : ∀ l to_nodes to_forwards,
  ∃ sel st,
    get_consistent_nodes_from_loop l fwd mask to_nodes to_forwards
    = ((to_nodes ++ (successor <$> sel), to_forwards ++ (to_forward <$> sel)), st) ∧
    Forall (λ a, a ∈ l ∧ forward a = fwd ∧
                 mask !! N.to_nat (successor a) = Some false) sel ∧
    (st = Ret () → sel = filter (λ a, forward a = fwd) (unmasked mask l)) ∧
    (Forall (λ a, is_Some (mask !! N.to_nat (successor a))) l → st = Ret ()).
Proof.
  induction l as [| a l IH]; intros to_nodes to_forwards.
  - exists [], (Ret ()). simpl. by rewrite !(right_id_L [] (++)).
  - cbn [get_consistent_nodes_from_loop]. unfold unmasked.
    assert (∀ sel : list arc_t,
              Forall (λ a0, a0 ∈ l ∧ forward a0 = fwd ∧
                            mask !! N.to_nat (successor a0) = Some false) sel →
              Forall (λ a0, a0 ∈ a :: l ∧ forward a0 = fwd ∧
                            mask !! N.to_nat (successor a0) = Some false) sel) as Hweak.
    { intros sel H. eapply Forall_impl; [exact H |].
      intros a0 (? & ? & ?). split; [by right | done]. }
    destruct (mask !! N.to_nat (successor a)) as [[|] |] eqn:Hm.
    + destruct (IH to_nodes to_forwards) as (sel & st & -> & Hsel & Hret & Hcov).
      exists sel, st. split_and!; [done | by apply Hweak | |].
      * intros Hst. rewrite filter_cons_False by congruence. by apply Hret.
      * intros Hall. apply Hcov. by apply Forall_cons in Hall as [_ ?].
    + case_bool_decide as Hf.
      * destruct (IH (to_nodes ++ [successor a]) (to_forwards ++ [to_forward a]))
          as (sel & st & -> & Hsel & Hret & Hcov).
        exists (a :: sel), st. split_and!.
        -- by rewrite <- !(assoc_L (++)).
        -- apply Forall_cons. split; [| by apply Hweak].
           split; [by left | done].
        -- intros Hst. rewrite filter_cons_True by done.
           rewrite filter_cons_True by done. f_equal. by apply Hret.
        -- intros Hall. apply Hcov. by apply Forall_cons in Hall as [_ ?].
      * destruct (IH to_nodes to_forwards) as (sel & st & -> & Hsel & Hret & Hcov).
        exists sel, st. split_and!; [done | by apply Hweak | |].
        -- intros Hst. rewrite filter_cons_True by done.
           rewrite filter_cons_False by done. by apply Hret.
        -- intros Hall. apply Hcov. by apply Forall_cons in Hall as [_ ?].
    + exists [], Throw. simpl. rewrite !(right_id_L [] (++)).
      split_and!; [done | done | done |].
      intros Hall. apply Forall_cons in Hall as [[? Hsome] _]. congruence.
Qed.

Lemma get_consistent_nodes_from_ok g node fwd to_nodes to_forwards mask :
  ∃ sel st,
    get_consistent_nodes_from g node fwd to_nodes to_forwards mask
    = ((successor <$> sel, to_forward <$> sel), st) ∧
    Forall (λ a, has_arc g node fwd (successor a) (to_forward a) ∧
                 mask !! N.to_nat (successor a) = Some false) sel ∧
    (st = Ret () → ∃ n, nodes g !! N.to_nat node = Some n ∧
                        sel = filter (λ a, forward a = fwd) (unmasked mask (arcs n))) ∧
    (∀ n, nodes g !! N.to_nat node = Some n →
          Forall (λ a, is_Some (mask !! N.to_nat (successor a))) (arcs n) →
          st = Ret ()).
Proof.
  unfold get_consistent_nodes_from.
  destruct (nodes g !! N.to_nat node) as [n |] eqn:Hn.
  - destruct (get_consistent_nodes_from_loop_ok fwd mask (arcs n) [] [])
      as (sel & st & -> & Hsel & Hret & Hcov).
    exists sel, st. split_and!; [done | | |].
    + eapply Forall_impl; [exact Hsel |]. intros a (Ha & Hf & Hm).
      split; [| done]. by exists n, a.
    + intros Hst. exists n. split; [done |]. by apply Hret.
    + intros n' [= <-]. apply Hcov.
  - exists [], Throw. split_and!; [done | done | done |]. intros n' [=].
Qed.

(** X13: on every call [get_consistent_nodes_from] forgets what [to_nodes]
    and [to_forwards] held and leaves in them, position by position, the
    successor and the entering orientation of arcs of the queried node that
    leave it with the orientation asked for and whose successor is not
    masked; the two vectors always have the same length. When the call
    returns these are all such arcs, in the order of the node's arc list. *)
Theorem get_consistent_nodes_from_vectors g node fwd to_nodes to_forwards mask :
  ∃ sel st,
    get_consistent_nodes_from g node fwd to_nodes to_forwards mask
    = ((successor <$> sel, to_forward <$> sel), st) ∧
    length (successor <$> sel) = length (to_forward <$> sel) ∧
    Forall (λ a, has_arc g node fwd (successor a) (to_forward a) ∧
                 mask !! N.to_nat (successor a) = Some false) sel ∧
    (st = Ret () → ∃ n, nodes g !! N.to_nat node = Some n ∧
                        sel = filter (λ a, forward a = fwd) (unmasked mask (arcs n))) ∧
    (∀ n, nodes g !! N.to_nat node = Some n →
          Forall (λ a, is_Some (mask !! N.to_nat (successor a))) (arcs n) →
          st = Ret ()).
Proof.
  destruct (get_consistent_nodes_from_ok g node fwd to_nodes to_forwards mask)
    as (sel & st & H & Hsel & Hret & Hcov).
  exists sel, st. split_and!; [done | by rewrite !length_fmap | done..].
Qed.

Lemma check_path_consistency_true g path_nodes forwards :
  path_nodes ≠ [] →
  (size path_nodes < 2 ^ 64)%Z →
  length path_nodes = length forwards →
  Forall (λ v, is_Some (nodes g !! N.to_nat v)) path_nodes →
  check_path_consistency g path_nodes forwards = Ret true ↔
  ∀ i v f w, path_nodes !! i = Some v → forwards !! i = Some f →
             path_nodes !! (i + 1) = Some w → has_arc_to g v f w.
Proof.
  intros Hne Hsize Hlen Hvalid. unfold check_path_consistency.
  destruct (decide (length path_nodes ≠ length forwards)); [done |].
  assert (0 < length path_nodes) by (destruct path_nodes; [done | simpl; lia]).
  unfold size in *. rewrite to_size_t_id by lia.
  destruct (check_path_consistency_loop_ok g path_nodes forwards Hlen Hvalid
              (Z.to_nat (Z.of_nat (length path_nodes) - 1)) 0) as (b & -> & Hiff); [lia |].
  split.
  - intros [= ->]. intros i v f w Hv Hf Hw. eapply (proj1 Hiff); [done | | done..].
    apply lookup_lt_Some in Hw. lia.
  - intros Hall. f_equal. apply Hiff. intros j v f w _. apply Hall.
Qed.

(** X14: a candidate that [get_consistent_nodes_from] gives for the last
    step of a path that [check_path_consistency] accepts can be appended:
    the check accepts the longer path too. The mask has one entry for each
    node. *)
Theorem check_path_consistency_extend g path_nodes forwards v f w fw
    to_nodes0 to_forwards0 mask to_nodes to_forwards st j :
  (size path_nodes + 2 < 2 ^ 64)%Z →
  length path_nodes = length forwards →
  Forall (λ v, is_Some (nodes g !! N.to_nat v)) (path_nodes ++ [v]) →
  length mask = length (nodes g) →
  check_path_consistency g (path_nodes ++ [v]) (forwards ++ [f]) = Ret true →
  get_consistent_nodes_from g v f to_nodes0 to_forwards0 mask
  = ((to_nodes, to_forwards), st) →
  to_nodes !! j = Some w → to_forwards !! j = Some fw →
  check_path_consistency g (path_nodes ++ [v; w]) (forwards ++ [f; fw]) = Ret true.
Proof.
  intros Hsize Hlen Hvalid Hmask Hcheck Hget Hw Hfw.
  destruct (get_consistent_nodes_from_ok g v f to_nodes0 to_forwards0 mask)
    as (sel & st' & Hget' & Hsel & _ & _).
  rewrite Hget in Hget'. injection Hget' as -> -> _.
  apply list_lookup_fmap_Some in Hw as (a & -> & Ha).
  rewrite Forall_lookup in Hsel. destruct (Hsel _ _ Ha) as [Harc Hm].
  apply list_lookup_fmap_Some in Hfw as (a' & -> & Ha').
  rewrite Ha in Ha'. injection Ha' as <-.
  assert (is_Some (nodes g !! N.to_nat (successor a))) as Hwvalid.
  { apply lookup_lt_is_Some. rewrite <- Hmask. by eapply lookup_lt_Some. }
  assert (∀ i v' f' w', (path_nodes ++ [v]) !! i = Some v' →
            (forwards ++ [f]) !! i = Some f' →
            (path_nodes ++ [v]) !! (i + 1) = Some w' → has_arc_to g v' f' w') as Hold.
  { apply (check_path_consistency_true g (path_nodes ++ [v]) (forwards ++ [f]));
      [by destruct path_nodes | unfold size in *; rewrite length_app; simpl; lia
      | by rewrite !length_app, Hlen | done | done]. }
  clear Hcheck. rename Hold into Hcheck.
  apply check_path_consistency_true.
  - by destruct path_nodes.
  - unfold size in *. rewrite length_app. simpl. lia.
  - by rewrite !length_app, Hlen.
  - rewrite (cons_middle v), (assoc_L (++)). apply Forall_app. split; [done |].
    by apply Forall_singleton.
  - intros i v' f' w' Hv' Hf' Hw'.
    destruct (decide (i < length path_nodes)) as [Hi | Hi].
    + apply (Hcheck i v' f' w').
      * rewrite lookup_app_l in Hv' by done. by rewrite lookup_app_l.
      * rewrite lookup_app_l in Hf' by lia. rewrite lookup_app_l by lia. done.
      * rewrite (cons_middle v), (assoc_L (++)) in Hw'.
        rewrite lookup_app_l in Hw' by (rewrite length_app; simpl; lia). done.
    + assert (i = length path_nodes) as ->.
      { apply lookup_lt_Some in Hw'. rewrite length_app in Hw'. simpl in Hw'. lia. }
      rewrite lookup_app_r in Hv', Hw' by lia.
      rewrite lookup_app_r in Hf' by lia.
      rewrite Nat.sub_diag in Hv'. rewrite Hlen, Nat.sub_diag in Hf'.
      replace (length path_nodes + 1 - length path_nodes) with 1 in Hw' by lia.
      simpl in Hv', Hf', Hw'. simplify_eq.
      destruct Harc as (node & a' & ? & ? & ? & ? & ?). by exists node, a'.
Qed.

Lemma check_path_consistency_extend_witness :
  check_path_consistency chain_graph ([] ++ [0%N; 1%N]) ([] ++ [true; false]) = Ret true.
Proof.
  apply (check_path_consistency_extend chain_graph [] [] 0%N true 1%N false
           [] [] [false; false] [1%N] [false] (Ret ()) 0).
  - by vm_compute.
  - done.
  - repeat constructor. by eexists.
  - done.
  - reflexivity.
  - reflexivity.
  - reflexivity.
  - reflexivity.
Defined.

(** ** rfind *)

Lemma rfind_down_none s pat : ∀ n,
  (∀ i, i < n → take (length pat) (drop i s) ≠ pat) → rfind_down s pat n = npos.
Proof.
  induction n as [| n IH]; intros H; [done |]. simpl.
  rewrite bool_decide_false by (apply H; lia). apply IH. intros i Hi. apply H. lia.
Qed.

Lemma rfind_down_last s pat j : ∀ n,
  j < n → take (length pat) (drop j s) = pat →
  (∀ i, j < i < n → take (length pat) (drop i s) ≠ pat) →
  rfind_down s pat n = Z.of_nat j.
Proof.
  induction n as [| n IH]; intros Hj Hmatch Hlast; [lia |]. simpl.
  destruct (decide (j = n)) as [-> | Hne].
  - by rewrite bool_decide_true.
  - rewrite bool_decide_false by (apply Hlast; lia).
    apply IH; [lia | done |]. intros i Hi. apply Hlast. lia.
Qed.

Lemma rfind_down_found s pat : ∀ n,
  rfind_down s pat n = npos ∨
  ∃ j, rfind_down s pat n = Z.of_nat j ∧ j < n ∧ take (length pat) (drop j s) = pat.
Proof.
  induction n as [| n IH]; [by left |]. simpl. case_bool_decide as Hm.
  - right. exists n. split_and!; [done | lia | done].
  - destruct IH as [-> | (j & -> & Hj & Hmatch)]; [by left |].
    right. exists j. split_and!; [done | lia | done].
Qed.

Lemma occurs_at (s pat : std_string) i :
  take (length pat) (drop i s) = pat → s = take i s ++ pat ++ drop (i + length pat) s.
Proof.
  intros H. rewrite <- (take_drop i s) at 1. f_equal.
  rewrite <- (take_drop (length pat) (drop i s)) at 1. rewrite H. f_equal.
  by rewrite drop_drop.
Qed.

Lemma occurs_take_drop (pre pat post : std_string) :
  take (length pat) (drop (length pre) (pre ++ pat ++ post)) = pat.
Proof. rewrite drop_app_length. by rewrite take_app_length. Qed.

Lemma rfind_down_npos s pat : ∀ n,
  (Z.of_nat n ≤ npos)%Z →
  rfind_down s pat n = npos ↔ ∀ i, i < n → take (length pat) (drop i s) ≠ pat.
Proof.
  intros n Hn. split; [| apply rfind_down_none].
  induction n as [| n IH]; intros H i Hi; [lia |]. simpl in H.
  case_bool_decide as Hm; [unfold npos in *; lia |].
  destruct (decide (i = n)) as [-> | Hne]; [done |].
  apply IH; [lia | done | lia].
Qed.

(** [rfind] finds nothing exactly in the strings the pattern does not occur
    in. *)
Lemma rfind_npos s pat :
  (size s < npos)%Z →
  rfind s pat = npos ↔ ¬ ∃ pre post, s = pre ++ pat ++ post.
Proof.
  intros Hsize. unfold rfind, size in *.
  destruct (Nat.ltb_spec (length s) (length pat)) as [Hlt | Hle].
  - split; [| done]. intros _ (pre & post & ->). rewrite !length_app in Hlt. lia.
  - rewrite rfind_down_npos by lia. split.
    + intros Hnone (pre & post & ->). apply (Hnone (length pre)).
      * rewrite !length_app. lia.
      * apply occurs_take_drop.
    + intros Hnone i Hi Hmatch. apply Hnone. eexists _, _. by apply occurs_at.
Qed.

Lemma rfind_suffix pre pat : rfind (pre ++ pat) pat = Z.of_nat (length pre).
Proof.
  unfold rfind. rewrite length_app.
  destruct (Nat.ltb_spec (length pre + length pat) (length pat)); [lia |].
  replace (length pre + length pat - length pat) with (length pre) by lia.
  simpl. rewrite drop_app_length, firstn_all. by rewrite bool_decide_true.
Qed.

Lemma take_1_drop (s : std_string) i c :
  take 1 (drop i s) = [c] ↔ s !! i = Some c.
Proof.
  replace (s !! i) with (drop i s !! 0) by (rewrite lookup_drop; f_equal; lia).
  destruct (drop i s) as [| x l]; simpl; [done |]. split; by intros [= ->].
Qed.

Lemma rfind_char_last pre c post :
  c ∉ post → rfind (pre ++ c :: post) [c] = Z.of_nat (length pre).
Proof.
  intros Hc. unfold rfind.
  destruct (Nat.ltb_spec (length (pre ++ c :: post)) (length [c])) as [Hlt | _].
  { rewrite length_app in Hlt. simpl in Hlt. lia. }
  apply rfind_down_last.
  - rewrite length_app. simpl. lia.
  - apply take_1_drop. by rewrite lookup_app_r, Nat.sub_diag.
  - intros i Hi Hmatch. apply (proj1 (take_1_drop _ _ _)) in Hmatch.
    rewrite lookup_app_r in Hmatch by lia.
    replace (i - length pre) with (S (i - length pre - 1)) in Hmatch by lia.
    simpl in Hmatch. apply Hc. by eapply list_elem_of_lookup_2.
Qed.

Lemma rfind_char_none (s : std_string) c : c ∉ s → rfind s [c] = npos.
Proof.
  intros Hc. unfold rfind. destruct (length s <? length [c]); [done |].
  apply rfind_down_none. intros i _ Hmatch. apply take_1_drop in Hmatch.
  apply Hc. by eapply list_elem_of_lookup_2.
Qed.

(** ** The names of the output files *)

Arguments str : simpl never.

Section names.

Context (dir name : std_string).
Hypothesis dir_ends : dir = [] ∨ last dir = Some "/"%char.
Hypothesis name_no_slash : "/"%char ∉ name.
Hypothesis input_size : (size (dir ++ name) ≤ max_size)%Z.

Lemma slash_pos_cases :
  (dir = [] ∧ rfind (dir ++ name) (str "/") = npos) ∨
  (∃ d, dir = d ++ ["/"%char] ∧ rfind (dir ++ name) (str "/") = Z.of_nat (length d)).
Proof.
  change (str "/") with ["/"%char].
  destruct dir_ends as [-> | Hlast].
  - left. split; [done |]. by apply rfind_char_none.
  - right. apply last_Some in Hlast as [d ->]. exists d. split; [done |].
    rewrite <- (assoc_L (++)). simpl. by apply rfind_char_last.
Qed.

Lemma name_pos_dir :
  (if (rfind (dir ++ name) (str "/") =? npos)%Z then 0%Z
   else to_size_t (rfind (dir ++ name) (str "/") + 1))
  = Z.of_nat (length dir).
Proof.
  unfold max_size, size, npos in *.
  destruct slash_pos_cases as [[-> ->] | (d & -> & ->)]; [done |].
  rewrite !length_app in *. simpl in *.
  rewrite (proj2 (Z.eqb_neq _ _)) by lia. rewrite to_size_t_id; lia.
Qed.

Lemma input_dir_dir :
  (if (rfind (dir ++ name) (str "/") =? npos)%Z then Ret []
   else substr (dir ++ name) 0 (to_size_t (rfind (dir ++ name) (str "/") + 1)))
  = Ret dir.
Proof.
  unfold max_size, size, npos in *.
  destruct slash_pos_cases as [[-> ->] | (d & Hd & ->)]; [done |].
  rewrite !length_app in *. subst dir. rewrite length_app in input_size. simpl in *.
  rewrite (proj2 (Z.eqb_neq _ _)) by lia. rewrite to_size_t_id by lia.
  unfold substr, size. rewrite (proj2 (Z.ltb_ge _ _)) by lia. simpl. rewrite drop_0.
  f_equal. rewrite !length_app. simpl.
  replace (Z.to_nat _) with (length (d ++ ["/"%char])) by (rewrite length_app; simpl; lia).
  by rewrite take_app_length.
Qed.

Lemma base_name_eq :
  base_name (dir ++ name)
  = Ret (take (Z.to_nat (Z.min (to_size_t (rfind (dir ++ name) (str ".unitigs.fa")
                                            - Z.of_nat (length dir)))
                               (Z.of_nat (length name)))) name).
Proof.
  unfold base_name. rewrite name_pos_dir. unfold substr, size.
  rewrite length_app. rewrite (proj2 (Z.ltb_ge _ _)) by lia.
  rewrite Nat2Z.id, drop_app_length. do 3 f_equal. lia.
Qed.

End names.

Lemma slash_not_in_extension : "/"%char ∉ str ".unitigs.fa".
Proof. refine (bool_decide_unpack _ _). by vm_compute. Qed.

Lemma base_name_unitigs dir base :
  dir = [] ∨ last dir = Some "/"%char →
  "/"%char ∉ base →
  (size (dir ++ base ++ str ".unitigs.fa") ≤ max_size)%Z →
  base_name (dir ++ base ++ str ".unitigs.fa") = Ret base.
Proof.
  intros Hdir Hbase Hsize.
  rewrite (base_name_eq dir (base ++ str ".unitigs.fa")); [| done | | done].
  - rewrite (assoc_L (++)), rfind_suffix. rewrite length_app.
    unfold max_size, size in *. rewrite !length_app in Hsize.
    rewrite to_size_t_id by lia. f_equal.
    replace (Z.to_nat _) with (length base) by (rewrite length_app; lia).
    by rewrite take_app_length.
  - rewrite not_elem_of_app. split; [done | apply slash_not_in_extension].
Qed.

Lemma output_names_of_base dir name base output_prefix suffix :
  dir = [] ∨ last dir = Some "/"%char →
  "/"%char ∉ name →
  (size (dir ++ name) ≤ max_size)%Z →
  base_name (dir ++ name) = Ret base →
  output_names (dir ++ name) output_prefix [] [] suffix
  = Ret ((if bool_decide (output_prefix ≠ []) then output_prefix else dir)
           ++ base ++ str ".ustar.fa",
         (if bool_decide (output_prefix ≠ []) then output_prefix else dir)
           ++ base ++ str ".ustar" ++ suffix ++ str ".counts").
Proof.
  intros Hdir Hname Hsize Hbase. unfold output_names. simpl.
  rewrite Hbase. simpl. case_bool_decide; [done |].
  by rewrite (input_dir_dir dir name).
Qed.

Lemma base_name_no_extension dir name :
  dir = [] ∨ last dir = Some "/"%char →
  "/"%char ∉ name →
  (size (dir ++ name) ≤ max_size)%Z →
  (¬ ∃ pre post, name = pre ++ str ".unitigs.fa" ++ post) →
  base_name (dir ++ name) = Ret name.
Proof.
  intros Hdir Hname Hsize Hnone. rewrite (base_name_eq dir name) by done.
  f_equal. apply take_ge.
  unfold max_size, size in *. rewrite length_app in Hsize.
  assert (rfind (dir ++ name) (str ".unitigs.fa") = npos ∨
          ∃ j, rfind (dir ++ name) (str ".unitigs.fa") = Z.of_nat j ∧ j < length dir)
    as [-> | (j & -> & Hj)].
  { unfold rfind. destruct (_ <? _); [by left |].
    destruct (rfind_down_found (dir ++ name) (str ".unitigs.fa")
                (S (length (dir ++ name) - length (str ".unitigs.fa"))))
      as [-> | (j & -> & _ & Hmatch)]; [by left |].
    right. exists j. split; [done |].
    destruct (decide (j < length dir)) as [| Hge]; [done |].
    destruct Hnone. rewrite drop_app_ge in Hmatch by lia.
    eexists _, _. by apply occurs_at. }
  - unfold npos. rewrite to_size_t_id by lia. lia.
  - rewrite to_size_t_negative by lia. lia.
Qed.

Lemma base_name_returns s : (size s ≤ max_size)%Z → returns (base_name s).
Proof.
  intros Hsize. unfold base_name, substr, max_size, size in *.
  assert ((if (rfind s (str "/") =? npos)%Z then 0%Z
           else to_size_t (rfind s (str "/") + 1)) ≤ Z.of_nat (length s))%Z as Hpos.
  { unfold rfind.
    destruct (Nat.ltb_spec (length s) (length (str "/"))) as [| Hlen];
      [rewrite Z.eqb_refl; cbv iota; lia |].
    destruct (rfind_down_found s (str "/") (S (length s - length (str "/"))))
      as [-> | (j & -> & Hj & _)]; [rewrite Z.eqb_refl; cbv iota; lia |].
    change (length (str "/")) with 1 in Hj, Hlen.
    destruct (_ =? _)%Z; [lia |]. rewrite to_size_t_id; lia. }
  rewrite (proj2 (Z.ltb_ge _ _)) by done. by eexists.
Qed.

(** X15: for an input [dir/base.unitigs.fa] ([dir/] may be absent, [base]
    holds no slash) and no custom name, [process_single_file] names its
    outputs [base.ustar.fa] and [base.ustar<suffix>.counts], in the directory
    of the input when no output prefix is given, and behind the output prefix
    as it is written, with nothing put between, when there is one. *)
Theorem output_names_unitigs dir base output_prefix suffix :
  dir = [] ∨ last dir = Some "/"%char →
  "/"%char ∉ base →
  (size (dir ++ base ++ str ".unitigs.fa") ≤ max_size)%Z →
  output_names (dir ++ base ++ str ".unitigs.fa") output_prefix [] [] suffix
  = Ret ((if bool_decide (output_prefix ≠ []) then output_prefix else dir)
           ++ base ++ str ".ustar.fa",
         (if bool_decide (output_prefix ≠ []) then output_prefix else dir)
           ++ base ++ str ".ustar" ++ suffix ++ str ".counts").
Proof.
  intros Hdir Hbase Hsize. apply (output_names_of_base dir (base ++ str ".unitigs.fa"));
    [done | | done | by apply base_name_unitigs].
  rewrite not_elem_of_app. split; [done | apply slash_not_in_extension].
Qed.

Lemma output_names_unitigs_witness :
  output_names (str "data/" ++ str "reads" ++ str ".unitigs.fa") [] [] [] (str ".rle")
  = Ret (str "data/" ++ str "reads" ++ str ".ustar.fa",
         str "data/" ++ str "reads" ++ str ".ustar" ++ str ".rle" ++ str ".counts").
Proof.
  apply (output_names_unitigs (str "data/") (str "reads") [] (str ".rle")).
  - by right.
  - refine (bool_decide_unpack _ _). by vm_compute.
  - by vm_compute.
Defined.

(** X16: when the file name of the input (what follows its last slash) does
    not contain [.unitigs.fa], nothing is cut off: [.ustar.fa] and
    [.ustar<suffix>.counts] are appended to the whole file name; the length
    [ext_pos - name_pos] wraps to more characters than the name has. *)
Theorem output_names_no_extension dir name output_prefix suffix :
  dir = [] ∨ last dir = Some "/"%char →
  "/"%char ∉ name →
  (size (dir ++ name) ≤ max_size)%Z →
  (¬ ∃ pre post, name = pre ++ str ".unitigs.fa" ++ post) →
  output_names (dir ++ name) output_prefix [] [] suffix
  = Ret ((if bool_decide (output_prefix ≠ []) then output_prefix else dir)
           ++ name ++ str ".ustar.fa",
         (if bool_decide (output_prefix ≠ []) then output_prefix else dir)
           ++ name ++ str ".ustar" ++ suffix ++ str ".counts").
Proof.
  intros Hdir Hname Hsize Hnone.
  apply output_names_of_base; [done.. |]. by apply base_name_no_extension.
Qed.

Lemma output_names_no_extension_witness :
  output_names (str "data/" ++ str "list.txt") (str "out/") [] [] []
  = Ret (str "out/" ++ str "list.txt" ++ str ".ustar.fa",
         str "out/" ++ str "list.txt" ++ str ".ustar" ++ [] ++ str ".counts").
Proof.
  apply (output_names_no_extension (str "data/") (str "list.txt") (str "out/") []).
  - by right.
  - refine (bool_decide_unpack _ _). by vm_compute.
  - by vm_compute.
  - apply (proj1 (rfind_npos (str "list.txt") (str ".unitigs.fa") ltac:(by vm_compute))).
    reflexivity.
Defined.

Lemma app_not_nil (l k : std_string) : k ≠ [] → l ++ k ≠ [].
Proof. intros Hk H. apply app_eq_nil in H as [_ ?]. done. Qed.

Lemma app_not_nil_l (l k : std_string) : l ≠ [] → l ++ k ≠ [].
Proof. intros Hl H. apply app_eq_nil in H as [? _]. done. Qed.

(** X17: in single-file mode with neither -o nor -c, for the input
    [dir/base.unitigs.fa], [parse_cli] derives the names [base.ustar.fa] and
    [base.ustar<suffix>.counts] without the directory of the input, and
    [main] passes them on as custom names, which [process_single_file] uses
    as they are: the outputs are written in the working directory, not next
    to the input. *)
Theorem single_file_names_working_directory dir base p suffix :
  dir = [] ∨ last dir = Some "/"%char →
  "/"%char ∉ base →
  (size (dir ++ base ++ str ".unitigs.fa") ≤ max_size)%Z →
  params.input_file_name p = dir ++ base ++ str ".unitigs.fa" →
  params.batch_mode p = false →
  ∃ p', parse_cli_finish true false false p suffix = Ret p' ∧
        params.batch_mode p' = false ∧
        params.fasta_file_name p' = base ++ str ".ustar.fa" ∧
        params.counts_file_name p' = base ++ str ".ustar" ++ suffix ++ str ".counts" ∧
        single_file_names p' suffix
        = Ret (base ++ str ".ustar.fa", base ++ str ".ustar" ++ suffix ++ str ".counts").
Proof.
  intros Hdir Hbase Hsize Hinput Hbatch. unfold parse_cli_finish. simpl.
  rewrite Hinput, Hbatch. rewrite base_name_unitigs by done. simpl.
  rewrite bool_decide_false.
  - simpl. eexists. split; [reflexivity |]. simpl. split_and!; [done.. |].
    unfold single_file_names, output_names. simpl.
    rewrite bool_decide_true by (by apply app_not_nil).
    rewrite bool_decide_false; [done |].
    by apply app_not_nil.
  - rewrite (assoc_L (++)), rfind_suffix.
    unfold npos, max_size, size in *. rewrite !length_app in *. lia.
Qed.

Lemma single_file_names_working_directory_witness :
  ∃ p', parse_cli_finish true false false
          (params.mk (str "data/" ++ str "reads" ++ str ".unitigs.fa") [] [] 31
             false false false) (str ".rle") = Ret p' ∧
        params.batch_mode p' = false ∧
        params.fasta_file_name p' = str "reads" ++ str ".ustar.fa" ∧
        params.counts_file_name p'
        = str "reads" ++ str ".ustar" ++ str ".rle" ++ str ".counts" ∧
        single_file_names p' (str ".rle")
        = Ret (str "reads" ++ str ".ustar.fa",
               str "reads" ++ str ".ustar" ++ str ".rle" ++ str ".counts").
Proof.
  apply (single_file_names_working_directory (str "data/") (str "reads")).
  - by right.
  - refine (bool_decide_unpack _ _). by vm_compute.
  - by vm_compute.
  - reflexivity.
  - reflexivity.
Defined.

(** X18: after the options, [parse_cli] ends the process with [EXIT_FAILURE]
    when no input was given; otherwise it returns, and batch mode is on
    exactly when -b was given or [.unitigs.fa] occurs nowhere in the input
    name (a name that only contains it, such as [a.unitigs.fa.gz], is a single
    file); in batch mode the names given with -o and -c are left as they
    are. *)
Theorem parse_cli_finish_batch_mode new_counts_name new_fasta_name p suffix :
  (size (params.input_file_name p) ≤ max_size)%Z →
  parse_cli_finish false new_counts_name new_fasta_name p suffix = Exit EXIT_FAILURE ∧
  ∃ p', parse_cli_finish true new_counts_name new_fasta_name p suffix = Ret p' ∧
        params.input_file_name p' = params.input_file_name p ∧
        (params.batch_mode p' = true ↔
         params.batch_mode p = true ∨
         ¬ ∃ pre post, params.input_file_name p = pre ++ str ".unitigs.fa" ++ post) ∧
        (params.batch_mode p' = true →
         params.fasta_file_name p' = params.fasta_file_name p ∧
         params.counts_file_name p' = params.counts_file_name p).
Proof.
  intros Hsize. split; [done |]. unfold parse_cli_finish. simpl.
  destruct (base_name_returns _ Hsize) as [base ->]. simpl.
  eexists. split; [reflexivity |]. simpl. split; [done |].
  assert (rfind (params.input_file_name p) (str ".unitigs.fa") = npos ↔
          ¬ ∃ pre post, params.input_file_name p = pre ++ str ".unitigs.fa" ++ post)
    as Hrfind.
  { apply rfind_npos. unfold max_size, npos in *. lia. }
  destruct (params.batch_mode p); simpl.
  - split; [| by rewrite !andb_false_r]. split; [by left | done].
  - case_bool_decide as Hnpos; simpl.
    + split; [| by rewrite !andb_false_r]. split; [| done]. intros _. right. tauto.
    + split; [| done]. split; [done |]. intros [| Hnone]; [done |]. tauto.
Qed.

Lemma parse_cli_finish_batch_mode_witness :
  parse_cli_finish false false false
    (params.mk (str "a.unitigs.fa.gz") [] [] 31 false false false) []
  = Exit EXIT_FAILURE ∧
  ∃ p', parse_cli_finish true false false
          (params.mk (str "a.unitigs.fa.gz") [] [] 31 false false false) [] = Ret p' ∧
        params.input_file_name p' = str "a.unitigs.fa.gz" ∧
        (params.batch_mode p' = true ↔
         false = true ∨
         ¬ ∃ pre post, str "a.unitigs.fa.gz" = pre ++ str ".unitigs.fa" ++ post) ∧
        (params.batch_mode p' = true →
         params.fasta_file_name p' = [] ∧ params.counts_file_name p' = []).
Proof.
  apply (parse_cli_finish_batch_mode false false
           (params.mk (str "a.unitigs.fa.gz") [] [] 31 false false false) []).
  by vm_compute.
Defined.

Lemma batch_output_prefix_slash s :
  batch_output_prefix s = [] ∨ last (batch_output_prefix s) = Some "/"%char.
Proof.
  unfold batch_output_prefix. case_bool_decide as Hne; simpl.
  - case_bool_decide as Hlast; simpl; [by right |].
    right. apply last_snoc.
  - by left.
Qed.

(** X19: in batch mode the prefix given with -o gets a slash at its end unless
    it is empty or already has one, and for a listed input
    [dir/base.unitigs.fa] the outputs are [base.ustar.fa] and
    [base.ustar<suffix>.counts] behind that prefix, or in the directory of the
    input when no -o was given. *)
Theorem batch_names_unitigs dir base p suffix :
  dir = [] ∨ last dir = Some "/"%char →
  "/"%char ∉ base →
  (size (dir ++ base ++ str ".unitigs.fa") ≤ max_size)%Z →
  let prefix := if bool_decide (params.fasta_file_name p = []) then dir
                else batch_output_prefix (params.fasta_file_name p) in
  (prefix = [] ∨ last prefix = Some "/"%char) ∧
  batch_names p (dir ++ base ++ str ".unitigs.fa") suffix
  = Ret (prefix ++ base ++ str ".ustar.fa",
         prefix ++ base ++ str ".ustar" ++ suffix ++ str ".counts").
Proof.
  intros Hdir Hbase Hsize prefix. split.
  - unfold prefix. case_bool_decide; [done | apply batch_output_prefix_slash].
  - unfold batch_names.
    rewrite (output_names_of_base dir (base ++ str ".unitigs.fa") base);
      [| done | | done | by apply base_name_unitigs].
    + unfold prefix, batch_output_prefix.
      destruct (params.fasta_file_name p) as [| c l] eqn:Hp; [done |].
      rewrite (bool_decide_false (c :: l = [])) by done.
      rewrite (bool_decide_true (c :: l ≠ [])) by done.
      rewrite bool_decide_true; [done |].
      destruct (negb _); [by apply app_not_nil | done].
    + rewrite not_elem_of_app. split; [done | apply slash_not_in_extension].
Qed.

Lemma batch_names_unitigs_witness :
  let prefix := if bool_decide (str "out" = []) then str "data/"
                else batch_output_prefix (str "out") in
  (prefix = [] ∨ last prefix = Some "/"%char) ∧
  batch_names (params.mk (str "list.txt") (str "out") [] 31 false true false)
    (str "data/" ++ str "reads" ++ str ".unitigs.fa") []
  = Ret (prefix ++ str "reads" ++ str ".ustar.fa",
         prefix ++ str "reads" ++ str ".ustar" ++ [] ++ str ".counts").
Proof.
  apply (batch_names_unitigs (str "data/") (str "reads")
           (params.mk (str "list.txt") (str "out") [] 31 false true false) []).
  - by right.
  - refine (bool_decide_unpack _ _). by vm_compute.
  - by vm_compute.
Defined.

(** ** The loop over the list of files *)

Lemma listed_cons f lines :
  listed (f :: lines) = if bool_decide (f = []) then listed lines else f :: listed lines.
Proof.
  unfold listed. case_bool_decide.
  - by rewrite filter_cons_False by (by intros ?).
  - by rewrite filter_cons_True.
Qed.

Lemma batch_loop_ok {state : Type} (present : state → std_string → bool)
    (process : std_string → state → state * outcome ()) :
  ∀ lines file_count success_count fs,
  (∀ f fs, f ∈ listed lines → present fs f = true →
           returned (process f fs).2 = true ∨ (process f fs).2 = Throw) →
  (0 ≤ file_count)%Z →
  (file_count + size (listed lines) ≤ INT_MAX)%Z →
  ∃ fs' n,
    batch_loop present process lines file_count success_count fs
    = (fs', Ret ((file_count + size (listed lines))%Z, (success_count + n)%Z)) ∧
    (0 ≤ n ≤ size (listed lines))%Z ∧
    ((∀ f fs, f ∈ listed lines →
              present fs f = true ∧ returned (process f fs).2 = true) →
     n = size (listed lines)) ∧
    ((∀ f fs, f ∈ listed lines → present fs f = true → (process f fs).2 = Throw) →
     n = 0%Z).
Proof.
  induction lines as [| f lines IH]; intros file_count success_count fs Hall Hfc Hmax.
  - exists fs, 0%Z. unfold size. simpl. rewrite !Z.add_0_r. by repeat split.
  - cbn [batch_loop]. rewrite listed_cons in *. case_bool_decide as Hempty.
    + by apply IH.
    + unfold size in *. simpl length in *.
      rewrite (proj2 (Z.eqb_neq _ _)) by lia.
      assert (∀ f' fs, f' ∈ listed lines → present fs f' = true →
                returned (process f' fs).2 = true ∨ (process f' fs).2 = Throw) as Hall'
        by (intros ????; apply Hall; [by right | done]).
      destruct (present fs f) eqn:Hpresent; simpl.
      * destruct (Hall f fs ltac:(by left) Hpresent) as [Hret | Hthrow].
        -- destruct (process f fs) as [fs' [[] | | |]] eqn:Hp; try done.
           destruct (IH (file_count + 1)%Z (success_count + 1)%Z fs' Hall')
             as (fs'' & n & -> & Hn & Hfull & Hnone); [lia.. |].
           exists fs'', (n + 1)%Z. split; [f_equal; f_equal; f_equal; lia |].
           split; [lia |]. split.
           ++ intros H. rewrite Hfull; [lia |]. intros ???. apply H. by right.
           ++ intros H. specialize (H f fs ltac:(by left) Hpresent).
              by rewrite Hp in H.
        -- destruct (process f fs) as [fs' o] eqn:Hp. simpl in Hthrow. subst o.
           destruct (IH (file_count + 1)%Z success_count fs' Hall')
             as (fs'' & n & -> & Hn & Hfull & Hnone); [lia.. |].
           exists fs'', n. split; [f_equal; f_equal; f_equal; lia |].
           split; [lia |]. split.
           ++ intros H. destruct (H f fs ltac:(by left)) as [_ Hr].
              by rewrite Hp in Hr.
           ++ intros H. apply Hnone. intros ????. apply H; [by right | done].
      * destruct (IH (file_count + 1)%Z success_count fs Hall')
          as (fs'' & n & -> & Hn & Hfull & Hnone); [lia.. |].
        exists fs'', n. split; [f_equal; f_equal; f_equal; lia |].
        split; [lia |]. split.
        -- intros H. destruct (H f fs ltac:(by left)) as [? _]. congruence.
        -- intros H. apply Hnone. intros ????. apply H; [by right | done].
Qed.

(** X20: when no call of [process_single_file] ends the process, the loop of
    [main] over the list comes to its end with [file_count] the number of
    non-empty lines, whether they name a file that opens or not, and with
    [0 <= success_count <= file_count]; [success_count] reaches [file_count]
    when every listed file opens and its processing comes back, be it after
    the outputs or after an early [return], and stays 0 when every processing
    throws. The list may have at most [INT_MAX] non-empty lines. *)
Theorem batch_loop_counts {state : Type} (present : state → std_string → bool)
    (process : std_string → state → state * outcome ()) lines fs :
  (∀ f fs, f ∈ listed lines → present fs f = true →
           returned (process f fs).2 = true ∨ (process f fs).2 = Throw) →
  (size (listed lines) ≤ INT_MAX)%Z →
  ∃ fs' success_count,
    batch_loop present process lines 0 0 fs
    = (fs', Ret (size (listed lines), success_count)) ∧
    (0 ≤ success_count ≤ size (listed lines))%Z ∧
    ((∀ f fs, f ∈ listed lines →
              present fs f = true ∧ returned (process f fs).2 = true) →
     success_count = size (listed lines)) ∧
    ((∀ f fs, f ∈ listed lines → present fs f = true → (process f fs).2 = Throw) →
     success_count = 0%Z).
Proof.
  intros Hall Hmax.
  destruct (batch_loop_ok present process lines 0 0 fs Hall)
    as (fs' & n & Hloop & Hn); [lia.. |].
  exists fs', n. by rewrite Hloop.
Qed.

Lemma batch_loop_counts_witness :
  let present := λ (fs : list std_string) f, bool_decide (f ≠ str "missing") in
  let process := λ f (fs : list std_string),
    (f :: fs, if bool_decide (f = str "bad") then Throw else Ret ()) in
  let lines := [str "a"; []; str "missing"; str "bad"; str "b"] in
  ∃ fs' success_count,
    batch_loop present process lines 0 0 []
    = (fs', Ret (size (listed lines), success_count)) ∧
    (0 ≤ success_count ≤ size (listed lines))%Z ∧
    ((∀ f fs, f ∈ listed lines →
              present fs f = true ∧ returned (process f fs).2 = true) →
     success_count = size (listed lines)) ∧
    ((∀ f fs, f ∈ listed lines → present fs f = true → (process f fs).2 = Throw) →
     success_count = 0%Z).
Proof.
  apply batch_loop_counts.
  - intros f fs _ _. simpl. case_bool_decide; auto.
  - by vm_compute.
Defined.

(** X21: the first call of [process_single_file] that ends the process, as
    every fatal error of the parser does, ends the whole batch with its
    status, and no later line of the list is processed: the files are left
    as that call left them, having started from what the loop over the lines
    before it had reached, whatever follows in the list. *)
Theorem batch_loop_exit {state : Type} (present : state → std_string → bool)
    (process : std_string → state → state * outcome ()) before f after status fs :
  (∀ f fs, f ∈ listed before → present fs f = true →
           returned (process f fs).2 = true ∨ (process f fs).2 = Throw) →
  (size (listed before) < INT_MAX)%Z →
  f ≠ [] →
  (∀ fs, present fs f = true ∧ (process f fs).2 = Exit status) →
  ∃ fs0 counts,
    batch_loop present process before 0 0 fs = (fs0, Ret counts) ∧
    batch_loop present process (before ++ f :: after) 0 0 fs
    = ((process f fs0).1, Exit status).
Proof.
  intros Hall Hmax Hf Hexit.
  assert (∀ file_count success_count fs,
            (0 ≤ file_count)%Z →
            (file_count + size (listed before) < INT_MAX)%Z →
            ∃ fs0 counts,
              batch_loop present process before file_count success_count fs
              = (fs0, Ret counts) ∧
              batch_loop present process (before ++ f :: after)
                file_count success_count fs
              = ((process f fs0).1, Exit status)) as Hloop;
    [| apply Hloop; lia].
  clear fs. induction before as [| f' before IH]; intros file_count success_count fs Hfc Hlt.
  - exists fs, (file_count, success_count). split; [done |].
    simpl. rewrite bool_decide_false by done.
    unfold size, listed in Hlt. simpl in Hlt.
    rewrite (proj2 (Z.eqb_neq _ _)) by lia.
    destruct (Hexit fs) as [-> Hp]. simpl.
    destruct (process f fs) as [fs' o]. simpl in Hp. by subst o.
  - cbn [batch_loop app]. rewrite listed_cons in *. case_bool_decide as Hempty.
    + by apply IH.
    + unfold size in *. simpl length in *.
      rewrite (proj2 (Z.eqb_neq _ _)) by lia.
      assert (∀ f fs, f ∈ listed before → present fs f = true →
                returned (process f fs).2 = true ∨ (process f fs).2 = Throw) as Hall'
        by (intros ????; apply Hall; [by right | done]).
      destruct (present fs f') eqn:Hpresent'; simpl.
      * destruct (Hall f' fs ltac:(by left) Hpresent') as [Hret | Hthrow];
          destruct (process f' fs) as [fs' [[] | | |]]; try done;
          apply IH; (done || lia).
      * apply IH; (done || lia).
Qed.

Lemma batch_loop_exit_witness :
  let present := λ (fs : list std_string) (_ : std_string), true in
  let process := λ f (fs : list std_string),
    (f :: fs, if bool_decide (f = str "bad") then Exit 1%Z else Ret ()) in
  ∃ fs0 counts,
    batch_loop present process [str "a"; []] 0 0 [] = (fs0, Ret counts) ∧
    batch_loop present process ([str "a"; []] ++ str "bad" :: [str "b"]) 0 0 []
    = ((process (str "bad") fs0).1, Exit 1%Z).
Proof.
  apply batch_loop_exit.
  - intros f fs Hin _. simpl. case_bool_decide as Hbad; [| by left].
    subst f. vm_compute in Hin. apply list_elem_of_singleton in Hin. discriminate.
  - by vm_compute.
  - done.
  - intros fs. split; [done | reflexivity].
Defined.

(** What the list of processed files is in this example: the line after the
    one that ends the process is not among them. *)
Lemma batch_loop_exit_example :
  batch_loop (λ (fs : list std_string) _, true)
    (λ f fs, (f :: fs, if bool_decide (f = str "bad") then Exit 1%Z else Ret ()))
    [str "a"; []; str "bad"; str "b"] 0 0 []
  = ([str "bad"; str "a"], Exit 1%Z).
Proof. reflexivity. Qed.

(** ** A path walked from its other end *)

Lemma glue_snoc k1 l x : l ≠ [] → glue k1 (l ++ [x]) = glue k1 l ++ drop k1 x.
Proof.
  destruct l as [| o rest]; [done |]. intros _. simpl.
  by rewrite fmap_app, concat_app, (assoc_L (++)); simpl; rewrite (right_id_L [] (++)).
Qed.

Lemma glue_cons k1 (a b : std_string) rest :
  k1 ≤ length a → k1 ≤ length b →
  drop (length a - k1) a = take k1 b →
  glue k1 (a :: b :: rest) = take (length a - k1) a ++ glue k1 (b :: rest).
Proof.
  intros Ha Hb Hab. simpl.
  rewrite <- (take_drop (length a - k1) a) at 1. rewrite Hab.
  rewrite <- (assoc_L (++)). f_equal.
  by rewrite (assoc_L (++)), take_drop.
Qed.

Lemma revcomp_of_app a b : revcomp_of (a ++ b) = revcomp_of b ++ revcomp_of a.
Proof. unfold revcomp_of. by rewrite fmap_app, reverse_app. Qed.

Lemma revcomp_of_length s : length (revcomp_of s) = length s.
Proof. unfold revcomp_of. by rewrite length_reverse, length_fmap. Qed.

Lemma revcomp_of_take n s :
  drop n (revcomp_of s) = revcomp_of (take (length s - n) s).
Proof.
  unfold revcomp_of. by rewrite drop_reverse, length_fmap, fmap_take.
Qed.

Lemma revcomp_of_glue k1 : ∀ os,
  os ≠ [] → Forall (λ o : std_string, k1 ≤ length o) os → chained k1 os →
  revcomp_of (glue k1 os) = glue k1 (reverse (revcomp_of <$> os)).
Proof.
  induction os as [| a [| b rest] IH]; intros Hne Hlen Hchain; [done | |].
  - simpl. by rewrite !(right_id_L [] (++)).
  - apply Forall_cons in Hlen as [Ha Hlen]. destruct Hchain as [Hab Hchain].
    pose proof Hlen as Hlen'. apply Forall_cons in Hlen' as [Hb _].
    rewrite glue_cons by done. rewrite revcomp_of_app, IH by done.
    rewrite (fmap_cons _ a), (reverse_cons _ (revcomp_of a)).
    rewrite glue_snoc, revcomp_of_take; [done |].
    rewrite fmap_cons, reverse_cons. intros H. by apply app_eq_nil in H as [_ ?].
Qed.

Lemma upper_nucleotide_nucleotide c : upper_nucleotide c → nucleotide c.
Proof.
  unfold upper_nucleotide, nucleotide. intros H.
  repeat (apply elem_of_cons in H as [-> | H]; [by vm_compute; set_solver |]).
  by apply elem_of_nil in H.
Qed.

Lemma revcomp_revcomp_of s : Forall nucleotide s → revcomp s = Some (revcomp_of s).
Proof.
  intros Hs. unfold revcomp, revcomp_of.
  assert (mapM complement s = Some (complement_of <$> s)) as ->; [| done].
  apply mapM_Some, Forall2_fmap_r, Forall_Forall2_diag.
  eapply Forall_impl; [exact Hs |]. intros c Hc. unfold complement_of.
  apply complement_nucleotide in Hc as [x Hx]. simpl. by rewrite Hx.
Qed.

Lemma revcomp_of_upper s : Forall nucleotide s → Forall upper_nucleotide (revcomp_of s).
Proof. intros Hs. eapply revcomp_upper. by apply revcomp_revcomp_of. Qed.

Lemma revcomp_of_twice s : Forall upper_nucleotide s → revcomp_of (revcomp_of s) = s.
Proof.
  intros Hs.
  assert (Forall nucleotide s) as Hn
    by (eapply Forall_impl; [exact Hs | apply upper_nucleotide_nucleotide]).
  pose proof (revcomp_twice _ _ (revcomp_revcomp_of s Hn)) as Htwice.
  rewrite revcomp_revcomp_of in Htwice.
  - injection Htwice as ->. clear Hn. induction Hs as [| c s Hc Hs IH]; [done |].
    rewrite fmap_cons, IH. f_equal. by apply toupper_upper_nucleotide.
  - eapply Forall_impl; [by apply revcomp_of_upper | apply upper_nucleotide_nucleotide].
Qed.

Section upper_steps.
Variable g : DBG.
Hypothesis Hk : (1 ≤ Z.of_N (kmer_size g))%Z.


Lemma step_string_oriented step node :
  nodes g !! N.to_nat step.1 = Some node →
  Forall upper_nucleotide (unitig node) →
  oriented_unitig node step.2 = Some (step_string g step).
Proof.
  intros Hnode Hupper. unfold step_string, oriented_unitig. rewrite Hnode.
  destruct step.2; [done |]. apply revcomp_revcomp_of.
  eapply Forall_impl; [exact Hupper | apply upper_nucleotide_nucleotide].
Qed.

Lemma step_string_length step node :
  nodes g !! N.to_nat step.1 = Some node →
  length (step_string g step) = length (unitig node).
Proof.
  intros Hnode. unfold step_string. rewrite Hnode.
  destruct step.2; [done |]. apply revcomp_of_length.
Qed.

Lemma step_string_upper step :
  upper_node g step.1 → Forall upper_nucleotide (step_string g step).
Proof.
  intros (node & Hnode & _ & Hupper). unfold step_string. rewrite Hnode.
  destruct step.2; [done |]. apply revcomp_of_upper.
  eapply Forall_impl; [exact Hupper | apply upper_nucleotide_nucleotide].
Qed.

Lemma step_string_long step :
  upper_node g step.1 →
  Z.to_nat (Z.of_N (kmer_size g) - 1) ≤ length (step_string g step).
Proof.
  intros (node & Hnode & Hsize & _). rewrite (step_string_length _ _ Hnode).
  unfold size in *. lia.
Qed.

Lemma step_string_flip step :
  upper_node g step.1 →
  step_string g (flip_step step) = revcomp_of (step_string g step).
Proof.
  intros (node & Hnode & _ & Hupper). unfold step_string, flip_step. simpl.
  rewrite Hnode. destruct step.2; simpl; [done |]. by rewrite revcomp_of_twice.
Qed.

Lemma spelling_step_string step :
  upper_node g step.1 →
  spelling_step g step
  = Some (drop (Z.to_nat (Z.of_N (kmer_size g) - 1)) (step_string g step)).
Proof.
  intros (node & Hnode & Hsize & Hupper). unfold spelling_step.
  rewrite Hnode. simpl. rewrite (step_string_oriented _ _ Hnode Hupper). simpl.
  unfold last_chars. pose proof (step_string_length _ _ Hnode) as Hlen.
  unfold size in *. rewrite Hlen.
  rewrite bool_decide_true by lia. do 2 f_equal. lia.
Qed.

Lemma spelling_glue path :
  path ≠ [] → Forall (λ step, upper_node g step.1) path →
  spelling g path = Some (glue (Z.to_nat (Z.of_N (kmer_size g) - 1)) (step_string g <$> path)).
Proof.
  destruct path as [| step rest]; [done |]. intros _ Hall.
  apply Forall_cons in Hall as [(node & Hnode & Hsize & Hupper) Hall].
  simpl. rewrite Hnode. simpl.
  rewrite (step_string_oriented _ _ Hnode Hupper). simpl.
  assert (mapM (spelling_step g) rest
          = Some (drop (Z.to_nat (Z.of_N (kmer_size g) - 1)) <$> (step_string g <$> rest)))
    as ->; [| done].
  apply mapM_Some. rewrite <- list_fmap_compose.
  apply Forall2_fmap_r, Forall_Forall2_diag.
  eapply Forall_impl; [exact Hall |]. intros s Hs. by apply spelling_step_string.
Qed.

Lemma follows_overlaps_chained (Hfits : fits g) : ∀ path,
  Forall (λ step, upper_node g step.1) path →
  follows_overlaps g path →
  chained (Z.to_nat (Z.of_N (kmer_size g) - 1)) (step_string g <$> path).
Proof.
  induction path as [| [u fu] [| [v fv] rest] IH]; intros Hall Hfollows; [done.. |].
  apply Forall_cons in Hall as [(nu & Hu & Hsu & Hupu) Hall].
  pose proof Hall as Hall'.
  apply Forall_cons in Hall' as [(nv & Hv & Hsv & Hupv) _].
  rewrite !fmap_cons. split.
  - destruct (Hfollows 0 u fu v fv eq_refl eq_refl)
      as (nu' & a & Hu' & _ & Hfa & Hsa & Hta & Hover).
    simpl in Hu, Hv. rewrite Hu in Hu'. injection Hu' as <-. subst fu v fv.
    pose proof (fits_unitig _ _ _ Hfits Hu) as Hmu.
    pose proof (fits_unitig _ _ _ Hfits Hv) as Hmv.
    destruct Hfits as [Hk32 _].
    rewrite (overlaps_eq g nu nv a) in Hover by (done || lia).
    rewrite (overlap_suffix_oriented g nu (forward a) _
               (step_string_oriented (u, forward a) nu Hu Hupu)) in Hover.
    rewrite (overlap_prefix_oriented g nv (to_forward a) _ Hsv
               (step_string_oriented (successor a, to_forward a) nv Hv Hupv)) in Hover.
    simpl in Hover. injection Hover as Hover. by apply bool_decide_eq_true in Hover.
  - apply IH; [done |]. intros i ???? H1 H2. by apply (Hfollows (S i)).
Qed.

Lemma step_string_reverse_flip path :
  Forall (λ step, upper_node g step.1) path →
  step_string g <$> reverse (flip_step <$> path)
  = reverse (revcomp_of <$> (step_string g <$> path)).
Proof.
  intros Hall. rewrite fmap_reverse. f_equal. rewrite <- !list_fmap_compose.
  apply Forall_fmap_ext_1. eapply Forall_impl; [exact Hall |].
  intros step Hstep. by apply step_string_flip.
Qed.
End upper_steps.

Lemma zip_flip (path_nodes : list node_idx_t) : ∀ forwards : list bool,
  zip path_nodes (negb <$> forwards) = flip_step <$> zip path_nodes forwards.
Proof.
  induction path_nodes as [| v l IH]; intros [| f fs]; try done.
  simpl. by rewrite IH.
Qed.

Lemma glue_upper k1 os :
  Forall (Forall upper_nucleotide) os → Forall upper_nucleotide (glue k1 os).
Proof.
  destruct os as [| o rest]; [done |]. intros [Ho Hrest]%Forall_cons. simpl.
  apply Forall_app. split; [done |]. apply Forall_concat, Forall_fmap.
  eapply Forall_impl; [exact Hrest |]. intros s Hs. by apply Forall_drop.
Qed.

(** X22: a path read from its other end spells the reverse complement. On a
    non-empty path over nodes whose unitigs are upper-case nucleotide strings
    of at least [k - 1] characters, and whose consecutive steps are joined by
    arcs that [overlaps] accepts, [spell] returns a string, and [spell] on the
    reversed path with every orientation negated returns its reverse
    complement, as [reverse_complement] computes it. *)
Theorem spell_flip g path_nodes forwards :
  fits g → (1 ≤ Z.of_N (kmer_size g))%Z →
  path_nodes ≠ [] → length path_nodes = length forwards →
  Forall (upper_node g) path_nodes →
  follows_overlaps g (zip path_nodes forwards) →
  ∃ s r, spell g path_nodes forwards = Ret s ∧
         reverse_complement s = Ret r ∧
         spell g (reverse path_nodes) (reverse (negb <$> forwards)) = Ret r.
Proof.
  intros Hfits Hk Hne Hlen Hupper Hfollows.
  set (path := zip path_nodes forwards).
  set (k1 := Z.to_nat (Z.of_N (kmer_size g) - 1)).
  assert (Forall (λ step, upper_node g step.1) path) as Hpath.
  { apply Forall_lookup. intros i [v f] Hi. simpl.
    apply lookup_zip_with_Some in Hi as (? & ? & [= <- <-] & Hv & _).
    by eapply Forall_lookup_1. }
  assert (path ≠ []) as Hpne.
  { unfold path. destruct path_nodes, forwards; done. }
  exists (glue k1 (step_string g <$> path)),
         (revcomp_of (glue k1 (step_string g <$> path))).
  split; [| split].
  - apply spell_ok; [done.. |]. by apply spelling_glue.
  - rewrite reverse_complement_revcomp, revcomp_revcomp_of; [done |].
    eapply Forall_impl; [| apply upper_nucleotide_nucleotide].
    apply glue_upper, Forall_fmap. eapply Forall_impl; [exact Hpath |].
    intros step Hstep. by apply step_string_upper.
  - apply spell_ok; [done | by rewrite !length_reverse, length_fmap |].
    rewrite zip_reverse by (by rewrite length_fmap). rewrite zip_flip. fold path.
    rewrite spelling_glue; [| done | |].
    + f_equal. rewrite step_string_reverse_flip by done. symmetry.
      apply revcomp_of_glue.
      * by destruct path.
      * apply Forall_fmap. eapply Forall_impl; [exact Hpath |].
        intros step Hstep. by apply step_string_long.
      * by apply follows_overlaps_chained.
    + intros H. apply (f_equal length) in H.
      rewrite length_reverse, length_fmap in H. by destruct path.
    + apply Forall_reverse, Forall_fmap. eapply Forall_impl; [exact Hpath |].
      by intros step Hstep.
Qed.

Lemma spell_flip_witness :
  ∃ s r, spell chain_graph [0; 1]%N [true; false] = Ret s ∧
         reverse_complement s = Ret r ∧
         spell chain_graph (reverse [0; 1]%N) (reverse (negb <$> [true; false])) = Ret r.
Proof.
  apply spell_flip.
  - apply fits_chain_graph.
  - by vm_compute.
  - done.
  - done.
  - repeat constructor; eexists; (split; [reflexivity |]); (split; [by vm_compute |]);
      repeat constructor; by vm_compute; set_solver.
  - intros [| [| i]] u fu v fv Hu Hv; try done.
    injection Hu as <- <-. injection Hv as <- <-.
    eexists _, (mk_arc true 1 false). split; [reflexivity |].
    split; [by left |]. by vm_compute.
Defined.
